(** * LISTEN.tui: the song normaliser and display helpers of [listen/types.py]

    A shallow embedding of the entity classes of [src/listen/types.py]
    ([Link], [Album], [Artist], [Character], [Source], [Song]) together with
    [Song.from_data] and its helpers, the display-name joiners and the image
    selector, and of [Requester.from_data], [SystemFeed.from_data],
    [ListenWsData.from_data] and [MPVData.from_metadata], followed by the
    properties the design document states about them and by further
    properties of the code.

    Conventions of the embedding.
    - A Python [str] is a sequence of Unicode code points: [pystr].
    - [x | None] is [option x]; Python truthiness ([if x], [if not x]) is
      written out by the [truthy] functions: [None], the empty string, the
      empty list and the integer [0] are falsy.
    - A raw record (a decoded JSON object, [dict[str, Any]]) is a record of
      optional fields, one per key the code reads, at the type the entity
      classes declare for it; [None] stands for a key that is missing (for a
      key read with [.get], a JSON null behaves the same way).
    - A Python exception is a value of [exn]; code that can raise returns
      [result]. *)

From Stdlib Require Import QArith Qcanon Qcabs Qround Qabs Lqa.
From stdpp Require Import gmap strings list pretty.

Local Open Scope Z_scope.

(** ** Python strings *)

Module Py.

(** A code point. *)
Definition cp := N.

(** [str]: a sequence of code points. *)
Definition pystr := list cp.

(** A literal of the source, written in ASCII. *)
Definition lit (s : string) : pystr :=
Ascii.N_of_ascii <$> String.list_ascii_of_string s.

(** [str(n)] for an integer. *)
Definition str_int (n : Z) : pystr := lit (pretty n).

Fixpoint starts_with (p s : pystr) : bool :=
match p, s with
| [], _ => true
| _ :: _, [] => false
| a :: p', b :: s' => (a =? b)%N && starts_with p' s'
end.

(** [s.replace(old, new)] for a non-empty [old]: the occurrences of [old]
  are replaced from left to right, without overlap.  [skip] counts the code
  points of a matched occurrence still to be passed over. *)
Fixpoint replace_go (old new : pystr) (skip : nat) (s : pystr) : pystr :=
match s with
| [] => []
| c :: rest =>
    match skip with
    | S k => replace_go old new k rest
    | O =>
        if starts_with old s
        then new ++ replace_go old new (length old - 1)%nat rest
        else c :: replace_go old new 0%nat rest
    end
end.

Definition replace (old new s : pystr) : pystr := replace_go old new 0%nat s.

(** [sep.join(parts)] *)
Fixpoint join (sep : pystr) (parts : list pystr) : pystr :=
match parts with
| [] => []
| [p] => p
| p :: rest => p ++ sep ++ join sep rest
end.

(** Truthiness of [str | None], [int | None] and [list | None]. *)
Definition truthy_str (o : option pystr) : bool :=
match o with
| Some (_ :: _) => true
| _ => false
end.

Definition truthy_int (o : option Z) : bool :=
match o with
| Some n => negb (n =? 0)
| None => false
end.

Definition truthy_list {A} (o : option (list A)) : bool :=
match o with
| Some (_ :: _) => true
| _ => false
end.

(** The exceptions the modelled code can raise. *)
Inductive exn :=
| KeyError (key : string)
| TypeError (what : string)
| OverflowError (what : string).

Inductive result (A : Type) :=
| Ok (a : A)
| Raise (e : exn).
Global Arguments Ok {A} a.
Global Arguments Raise {A} e.

Definition bind {A B} (r : result A) (k : A → result B) : result B :=
match r with
| Ok a => k a
| Raise e => Raise e
end.

(** [d[key]] on a raw record: [KeyError] when the key is missing. *)
Definition subscript {A} (key : string) (field : option A) : result A :=
match field with
| Some a => Ok a
| None => Raise (KeyError key)
end.

(** [len(x)]: [TypeError] on [None]. *)
Definition len {A} (x : option (list A)) : result nat :=
match x with
| Some l => Ok (length l)
| None => Raise (TypeError "object of type 'NoneType' has no len()")
end.

(** A list comprehension whose element expression can raise: the elements
  are built from left to right and the first exception ends it. *)
Fixpoint comprehension {A B} (f : A → result B) (l : list A) : result (list B) :=
match l with
| [] => Ok []
| a :: rest =>
    bind (f a) (λ b, bind (comprehension f rest) (λ bs, Ok (b :: bs)))
end.

(** [for x in xs] over a value that may be [None]: [TypeError] on [None]. *)
Definition iter {A} (xs : option (list A)) : result (list A) :=
match xs with
| Some l => Ok l
| None => Raise (TypeError "'NoneType' object is not iterable")
end.

(** How the body of a [for] loop ends: it falls through to the next item,
  it leaves the loop ([break]), or it leaves the function ([return r]). *)
Inductive control (R : Type) :=
| Next
| Break
| Return (r : R).
Global Arguments Next {R}.
Global Arguments Break {R}.
Global Arguments Return {R} r.

(** A [for] loop whose body keeps no state: the value returned from inside
  the loop, or [None] when the loop is left or runs out of items. *)
Fixpoint for_each {A R} (body : A → control R) (l : list A) : option R :=
match l with
| [] => None
| a :: rest =>
    match body a with
    | Next => for_each body rest
    | Break => None
    | Return r => Some r
    end
end.

End Py.
Export Py.

Notation "'let*' x ':=' r 'in' k" := (bind r (λ x, k))
  (at level 10, x name, r at level 100, k at level 200).

(** ** The clock and floating-point arithmetic

    [time()] returns the wall-clock time as a double.  A reading of the clock
    is a rational number of seconds, handed to [Song.from_data] as [now]; it
    counts the seconds of a 64-bit [time_t], so it is far below the largest
    double.  In [time() + duration] the duration, an int, is first converted
    to a double, which raises [OverflowError] when it rounds to no finite
    double; the sum of the two doubles is then rounded to a double.

    The development is parametric in the sum, through the class [Float64]:
    [float_add now duration] is the double [time() + duration] when
    [duration] converts.  [double_sum] below is the sum of IEEE 754 binary64
    arithmetic, the one the code runs on. *)

Class Float64 := float_add : Qc → Z → Qc.

(** [round(x)] with one argument: the nearest integer, a tie going to the
    even one. *)
Definition round (x : Qc) : Z :=
  let f := Qfloor x in
  match (x - Qc_of_Z f ?= Q2Qc (1 # 2))%Qc with
  | Lt => f
  | Gt => f + 1
  | Eq => if Z.even f then f else f + 1
  end.

(** An int converts to a double when it rounds (to nearest, ties to even) to
    a finite one: when it is below [2 ^ 1024 - 2 ^ 970] in magnitude, half
    way between the largest double and [2 ^ 1024]. *)
Definition fits_double (n : Z) : bool := Z.abs n <? 2 ^ 1024 - 2 ^ 970.

(** [2 ^ k], for a [k] of either sign. *)
Definition pow2 (k : Z) : Qc :=
  if 0 <=? k then Qc_of_Z (2 ^ k) else (/ Qc_of_Z (2 ^ (- k)))%Qc.

(** The binade of a number other than zero: the [e] with
    [2 ^ e ≤ |x| < 2 ^ (e + 1)]. *)
Definition binade (x : Qc) : Z :=
  let c := Z.log2 (Z.abs (Qnum x)) - Z.log2 (Zpos (Qden x)) in
  match (pow2 c ?= Qcabs x)%Qc with
  | Gt => c - 1
  | _ => c
  end.

(** The exponent of the spacing of the doubles around [x]: 53 bits of
    significand, and [2 ^ -1074] for the subnormal numbers. *)
Definition quantum (x : Qc) : Z := Z.max (binade x - 52) (-1074).

(** The double nearest to [x], a tie going to the even significand. *)
Definition to_double (x : Qc) : Qc :=
  match (x ?= 0)%Qc with
  | Eq => x
  | _ => (Qc_of_Z (round (x * pow2 (- quantum x))) * pow2 (quantum x))%Qc
  end.

(** [now + duration] in binary64: the duration is converted, and the exact
    sum of the two doubles is rounded. *)
Definition double_sum : Float64 :=
  λ now duration, to_double (now + to_double (Qc_of_Z duration)).

(** ** The entity classes *)

Module Link.

Record t := mk { name : pystr; url : pystr }.

Inductive kind := albums | artists | sources.

Definition cdn : pystr := lit "https://cdn.listen.moe".

(** [Link.from_name] *)
Definition from_name (type : kind) (value : option pystr) : option t :=
  match value with
  | None | Some [] => None                       (* if not value *)
  | Some value =>
      let url :=
        match type with
        | albums => cdn ++ lit "/covers/" ++ value
        | artists => cdn ++ lit "/artists/" ++ value
        | sources => cdn ++ lit "/source/" ++ value
        end in
      Some (mk value url)
  end.

End Link.

Module Album.
Record t := mk {
  id : Z; name : option pystr; name_romaji : option pystr;
  image : option Link.t; link : pystr }.
(** The generated [__init__] followed by [__post_init__]. *)
Definition init id name name_romaji image : t :=
  mk id name name_romaji image (lit "https://listen.moe/albums/" ++ str_int id).
End Album.

Module Character.
Record t := mk {
  id : Z; name : option pystr; name_romaji : option pystr; link : pystr }.
Definition init id name name_romaji : t :=
  mk id name name_romaji (lit "https://listen.moe/characters/" ++ str_int id).
End Character.

Module Artist.
Record t := mk {
  id : Z; name : option pystr; name_romaji : option pystr;
  image : option Link.t; character : option (list Character.t); link : pystr }.
Definition init id name name_romaji image character : t :=
  mk id name name_romaji image character
     (lit "https://listen.moe/artists/" ++ str_int id).
End Artist.

Module Source.
Record t := mk {
  id : Z; name : option pystr; name_romaji : option pystr;
  image : option Link.t; link : pystr }.
Definition init id name name_romaji image : t :=
  mk id name name_romaji image (lit "https://listen.moe/sources/" ++ str_int id).
End Source.

(** What [Song._list_to_string] and [Song._get_image] read from an item of
    [list[Artist] | list[Source] | list[Album]]. *)
Class Item (A : Type) := {
  item_name : A → option pystr;
  item_name_romaji : A → option pystr;
  item_image : A → option Link.t }.

Global Instance artist_item : Item Artist.t :=
  {| item_name := Artist.name; item_name_romaji := Artist.name_romaji;
     item_image := Artist.image |}.
Global Instance source_item : Item Source.t :=
  {| item_name := Source.name; item_name_romaji := Source.name_romaji;
     item_image := Source.image |}.
Global Instance album_item : Item Album.t :=
  {| item_name := Album.name; item_name_romaji := Album.name_romaji;
     item_image := Album.image |}.

(** ** Raw records

    The JSON objects [Song.from_data] is given.  Every key is optional. *)

Module Raw.

Module Character.
Record t := mk {
  id : option Z; name : option pystr; nameRomaji : option pystr }.
End Character.

Module Source.
Record t := mk {
  id : option Z; name : option pystr; nameRomaji : option pystr;
  image : option pystr }.
End Source.

Module Album.
Record t := mk {
  id : option Z; name : option pystr; nameRomaji : option pystr;
  image : option pystr }.
End Album.

Module Artist.
Record t := mk {
  id : option Z; name : option pystr; nameRomaji : option pystr;
  image : option pystr; characters : option (list Character.t) }.
End Artist.

Module Song.
Record t := mk {
  id : option Z;
  title : option pystr;
  titleRomaji : option pystr;
  duration : option Z;
  played : option Z;
  sources : option (list Source.t);
  artists : option (list Artist.t);
  albums : option (list Album.t);
  characters : option (list Character.t) }.
End Song.

End Raw.

(** The code points [Song._sanitise] names. *)
Definition U3099 : cp := 0x3099%N.  (* combining voiced sound mark *)
Definition U309A : cp := 0x309A%N.  (* combining semi-voiced sound mark *)
Definition U309B : cp := 0x309B%N.  (* voiced sound mark *)
Definition U309C : cp := 0x309C%N.  (* semi-voiced sound mark *)
Definition U200B : cp := 0x200B%N.  (* zero width space *)

(** ** [Song] *)

Module Song.

Record t := mk {
  id : Z;
  title : option pystr;
  sources : option (list Source.t);
  artists : option (list Artist.t);
  characters : option (list Character.t);
  albums : option (list Album.t);
  duration : option Z;
  time_end : Z;
  played : option Z;
  title_romaji : option pystr }.

(** [Song._sanitise] *)
Definition _sanitise (word : option pystr) : option pystr :=
  match word with
  | None | Some [] => None                       (* if not word *)
  | Some word =>
      Some (replace [U200B] []
              (replace [U309A] [U309C]
                 (replace [U3099] [U309B] word)))
  end.

(** [Song._get_title] *)
Definition _get_title (song : Raw.Song.t) : option pystr :=
  let title := Raw.Song.title song in
  if truthy_str title then _sanitise title else title.

(** The element of the comprehension of [_get_sources]. *)
Definition source_entry (source : Raw.Source.t) : result Source.t :=
  let* id := subscript "id" (Raw.Source.id source) in
  Ok (Source.init id
        (_sanitise (Raw.Source.name source))
        (Raw.Source.nameRomaji source)
        (Link.from_name Link.sources (Raw.Source.image source))).

(** [Song._get_sources] *)
Definition _get_sources (song : Raw.Song.t) : result (option (list Source.t)) :=
  let sources := Raw.Song.sources song in
  if negb (truthy_list sources) then Ok None
  else
    let* sources := iter sources in
    let* built := comprehension source_entry sources in
    Ok (Some built).

(** The element of the inner comprehension of [_get_artists]:
    [Character(character['id'])]. *)
Definition placeholder_entry (character : Raw.Character.t) : result Character.t :=
  let* id := subscript "id" (Raw.Character.id character) in
  Ok (Character.init id None None).

(** The element of the comprehension of [_get_artists].  The condition of
    the conditional expression, [len(artist.get('characters')) != 0], is
    evaluated before either of its branches. *)
Definition artist_entry (artist : Raw.Artist.t) : result Artist.t :=
  let* id := subscript "id" (Raw.Artist.id artist) in
  let name := _sanitise (Raw.Artist.name artist) in
  let name_romaji := _sanitise (Raw.Artist.nameRomaji artist) in
  let image := Link.from_name Link.artists (Raw.Artist.image artist) in
  let* n := len (Raw.Artist.characters artist) in
  let* character :=
    if negb (n =? 0)%nat then
      let* characters := iter (Raw.Artist.characters artist) in
      let* placeholders := comprehension placeholder_entry characters in
      Ok (Some placeholders)
    else Ok None in
  Ok (Artist.init id name name_romaji image character).

(** [Song._get_artists] *)
Definition _get_artists (song : Raw.Song.t) : result (option (list Artist.t)) :=
  let artists := Raw.Song.artists song in
  if negb (truthy_list artists) then Ok None
  else
    let* artists := iter artists in
    let* built := comprehension artist_entry artists in
    Ok (Some built).

(** The element of the comprehension of [_get_albums]. *)
Definition album_entry (album : Raw.Album.t) : result Album.t :=
  let* id := subscript "id" (Raw.Album.id album) in
  Ok (Album.init id
        (_sanitise (Raw.Album.name album))
        (_sanitise (Raw.Album.nameRomaji album))
        (Link.from_name Link.albums (Raw.Album.image album))).

(** [Song._get_albums] *)
Definition _get_albums (song : Raw.Song.t) : result (option (list Album.t)) :=
  let albums := Raw.Song.albums song in
  if negb (truthy_list albums) then Ok None
  else
    let* albums := iter albums in
    let* built := comprehension album_entry albums in
    Ok (Some built).

(** The element of the comprehension of [_get_characters]. *)
Definition character_entry (character : Raw.Character.t) : result Character.t :=
  let* id := subscript "id" (Raw.Character.id character) in
  Ok (Character.init id
        (_sanitise (Raw.Character.name character))
        (_sanitise (Raw.Character.nameRomaji character))).

(** [Song._get_characters] *)
Definition _get_characters (song : Raw.Song.t) : result (option (list Character.t)) :=
  let characters := Raw.Song.characters song in
  if negb (truthy_list characters) then Ok None
  else
    let* characters := iter characters in
    let* built := comprehension character_entry characters in
    Ok (Some built).

(** [round(time() + duration) if duration else round(time())]: the sum
    raises [OverflowError] for a duration that does not convert to a
    double. *)
Definition expiry `{Float64} (now : Qc) (duration : option Z) : result Z :=
  match duration with
  | None | Some 0 => Ok (round now)
  | Some duration =>
      if fits_double duration then Ok (round (float_add now duration))
      else Raise (OverflowError "int too large to convert to float")
  end.

(** [Song.from_data], with the reading [now] of the clock.  The entries of
    [kwargs] are evaluated in the order they are written; [played] and
    [title_romaji] keep their default [None] unless the raw value is
    truthy. *)
Definition from_data `{Float64} (now : Qc) (data : Raw.Song.t) : result t :=
  let duration := Raw.Song.duration data in
  let* id := subscript "id" (Raw.Song.id data) in
  let* time_end := expiry now duration in
  let title := _get_title data in
  let* sources := _get_sources data in
  let* artists := _get_artists data in
  let* albums := _get_albums data in
  let* characters := _get_characters data in
  let played :=
    if truthy_int (Raw.Song.played data) then Raw.Song.played data else None in
  let title_romaji :=
    if truthy_str (Raw.Song.titleRomaji data) then Raw.Song.titleRomaji data
    else None in
  Ok (mk id title sources artists characters albums duration time_end
         played title_romaji).

(** The body of the loop of [Song._list_to_string]: the display name of
    [item] is appended when it is truthy. *)
Definition _list_to_string_body `{Item A} (romaji_first : bool)
    (lst_string : list pystr) (item : A) : list pystr :=
  let name :=
    if romaji_first then
      if truthy_str (item_name_romaji item) then item_name_romaji item
      else item_name item
    else item_name item in
  match name with
  | Some ((_ :: _) as name) => lst_string ++ [name]
  | _ => lst_string
  end.

(** [Song._list_to_string] *)
Definition _list_to_string `{Item A} (lst : option (list A))
    (romaji_first : bool) (sep : pystr) : option pystr :=
  match lst with
  | None | Some [] => None                       (* if not lst *)
  | Some lst =>
      let lst_string := foldl (_list_to_string_body romaji_first) [] lst in
      Some (join sep lst_string)
  end.

(** The variables of [artists_to_string] that live across the iterations of
    its loop over the artists.  [char_name] is set before the loop and is
    not reset inside it. *)
Record loop_vars := vars { char_name : option pystr; lst_string : list pystr }.

(** The body of the loop of [artists_to_string] over [self.artists]. *)
Definition artists_to_string_body (self : t) (romaji_first : bool)
    (character_map : gmap Z Character.t) (st : loop_vars) (artist : Artist.t)
    : loop_vars :=
  let name :=
    if romaji_first then
      if truthy_str (Artist.name_romaji artist) then Artist.name_romaji artist
      else Artist.name artist
    else Artist.name artist in
  (* self.characters and artist.character *)
  match (if truthy_list (characters self) then Artist.character artist
         else None) with
  | Some ((_ :: _) as placeholders) =>
      let char_name :=
        foldl (λ char_name character,
          match character_map !! Character.id character with
          | Some char =>
              if romaji_first then
                if truthy_str (Character.name_romaji char)
                then Character.name_romaji char
                else Character.name char
              else Character.name char
          | None => char_name
          end) (char_name st) placeholders in
      match name, char_name with
      | Some ((_ :: _) as n), Some ((_ :: _) as cn) =>
          vars char_name (lst_string st ++ [cn ++ lit " (CV: " ++ n ++ lit ")"])
      | _, _ => vars char_name (lst_string st)
      end
  | _ =>
      match name with
      | Some ((_ :: _) as n) => vars (char_name st) (lst_string st ++ [n])
      | _ => st
      end
  end.

(** [Song.artists_to_string] *)
Definition artists_to_string (self : t) (romaji_first : bool) (sep : pystr)
    : option pystr :=
  match artists self with
  | None | Some [] => None                       (* if not self.artists *)
  | Some artists =>
      let character_map : gmap Z Character.t :=
        match characters self with
        | None | Some [] => ∅                    (* if self.characters *)
        | Some characters =>
            foldl (λ character_map character,
                     <[Character.id character := character]> character_map)
                  ∅ characters
        end in
      let final :=
        foldl (artists_to_string_body self romaji_first character_map)
              (vars None []) artists in
      Some (join sep (lst_string final))
  end.

(** [Song.sources_to_string] and [Song.albums_to_string] *)
Definition sources_to_string (self : t) (romaji_first : bool) (sep : pystr) :=
  _list_to_string (sources self) romaji_first sep.

Definition albums_to_string (self : t) (romji_first : bool) (sep : pystr) :=
  _list_to_string (albums self) romji_first sep.

(** [Song._get_image] *)
Definition _get_image `{Item A} (lst : option (list A)) (url : bool)
    : option pystr :=
  match lst with
  | None | Some [] => None                       (* if not lst *)
  | Some lst =>
      for_each (λ item,
        match item_image item with
        | None => Break
        | Some image => Return (if url then Link.url image else Link.name image)
        end) lst
  end.

Definition artist_image (self : t) (url : bool) := _get_image (artists self) url.
Definition source_image (self : t) (url : bool) := _get_image (sources self) url.
Definition album_image (self : t) (url : bool) := _get_image (albums self) url.

End Song.

(** ** Reference definitions for the statements *)

(** What sanitising does to one code point. *)
Definition sanitise_char (c : cp) : pystr :=
  if (c =? U3099)%N then [U309B]
  else if (c =? U309A)%N then [U309C]
  else if (c =? U200B)%N then []
  else [c].

(** The display name the joiners use for an entry: the romanised name when
    it is preferred and truthy, the localised name otherwise. *)
Definition resolved_name (romaji_first : bool) (name name_romaji : option pystr)
    : option pystr :=
  if romaji_first then
    if truthy_str name_romaji then name_romaji else name
  else name.

(** The fallback chain as the design document words it: the preferred
    candidate, and the other one when the preferred one is absent. *)
Definition preferred_with_fallback (romaji_first : bool)
    (name name_romaji : option pystr) : option pystr :=
  if romaji_first then
    if truthy_str name_romaji then name_romaji else name
  else
    if truthy_str name then name else name_romaji.

(** An entry contributes its name when that name is truthy, and nothing
    otherwise. *)
Definition shown (name : option pystr) : list pystr :=
  match name with
  | Some ((_ :: _) as n) => [n]
  | _ => []
  end.

(** The joined display of a list by name preference alone. *)
Definition joined_names `{Item A} (romaji_first : bool) (sep : pystr)
    (lst : option (list A)) : option pystr :=
  match lst with
  | None | Some [] => None
  | Some l =>
      Some (join sep
              (l ≫= λ item,
                 shown (resolved_name romaji_first
                          (item_name item) (item_name_romaji item))))
  end.

(** The song has a character list and one of its artists carries character
    placeholders: the case in which [artists_to_string] cross-references. *)
Definition voice_roles (self : Song.t) : bool :=
  truthy_list (Song.characters self)
  && existsb (λ artist, truthy_list (Artist.character artist))
       (default [] (Song.artists self)).

(** The character of a song's list that an id resolves to in
    [artists_to_string]: the last one with that id. *)
Definition lookup_character (characters : list Character.t) (id : Z)
    : option Character.t :=
  last (filter (λ character, Character.id character = id) characters).

(** The character the placeholders of an artist resolve to: that of the last
    placeholder whose id is in the song's character list. *)
Definition last_resolved (characters placeholders : list Character.t)
    : option Character.t :=
  last (omap (λ placeholder,
                lookup_character characters (Character.id placeholder))
          placeholders).

(** The name of the character an artist is shown with: the display name of
    the character its placeholders resolve to, resolved as an entry's name
    is, and the name carried over from the artists before when no
    placeholder resolves. *)
Definition role_name (romaji_first : bool) (characters : list Character.t)
    (carried : option pystr) (placeholders : list Character.t) : option pystr :=
  match last_resolved characters placeholders with
  | Some character =>
      resolved_name romaji_first
        (Character.name character) (Character.name_romaji character)
  | None => carried
  end.

(** What an artist with a voice role contributes to the display. *)
Definition voice_entry (name char_name : option pystr) : list pystr :=
  match name, char_name with
  | Some ((_ :: _) as name), Some ((_ :: _) as char_name) =>
      [char_name ++ lit " (CV: " ++ name ++ lit ")"]
  | _, _ => []
  end.

(** The entries of the display of the artists, by name preference: an artist
    of a song with characters that has placeholders of its own is shown with
    its character, any other artist by its name. *)
Fixpoint artist_entries (romaji_first : bool)
    (characters : option (list Character.t)) (carried : option pystr)
    (artists : list Artist.t) : list pystr :=
  match artists with
  | [] => []
  | artist :: rest =>
      let name :=
        resolved_name romaji_first
          (Artist.name artist) (Artist.name_romaji artist) in
      match characters, Artist.character artist with
      | Some ((_ :: _) as cs), Some ((_ :: _) as placeholders) =>
          let char_name := role_name romaji_first cs carried placeholders in
          voice_entry name char_name
          ++ artist_entries romaji_first characters char_name rest
      | _, _ => shown name ++ artist_entries romaji_first characters carried rest
      end
  end.

(** The joined display of the artists of a song by name preference. *)
Definition artists_display (romaji_first : bool) (sep : pystr) (self : Song.t)
    : option pystr :=
  match Song.artists self with
  | None | Some [] => None
  | Some artists =>
      Some (join sep
              (artist_entries romaji_first (Song.characters self) None artists))
  end.

(** A key of a raw record is there. *)
Definition present {A} (field : option A) : bool :=
  match field with
  | Some _ => true
  | None => false
  end.

(** Every source, artist, album and character entry of the record, and every
    character entry of its artists, has an [id]. *)
Definition entries_have_ids (data : Raw.Song.t) : bool :=
  forallb (λ source, present (Raw.Source.id source))
    (default [] (Raw.Song.sources data))
  && forallb (λ artist,
       present (Raw.Artist.id artist)
       && forallb (λ character, present (Raw.Character.id character))
            (default [] (Raw.Artist.characters artist)))
       (default [] (Raw.Song.artists data))
  && forallb (λ album, present (Raw.Album.id album))
       (default [] (Raw.Song.albums data))
  && forallb (λ character, present (Raw.Character.id character))
       (default [] (Raw.Song.characters data)).

(** Every artist entry of the record has a [characters] list. *)
Definition artists_have_character_lists (data : Raw.Song.t) : bool :=
  forallb (λ artist, present (Raw.Artist.characters artist))
    (default [] (Raw.Song.artists data)).

(** The shape the four [_get_*] helpers share: [None] for a falsy field,
    and the list built by the comprehension otherwise. *)
Definition getter {A B} (entry : A → result B) (field : option (list A))
    : result (option (list B)) :=
  if negb (truthy_list field) then Ok None
  else
    let* l := iter field in
    let* built := comprehension entry l in
    Ok (Some built).

(** The call returned (it did not raise). *)
Definition is_ok {A} (r : result A) : bool :=
  match r with
  | Ok _ => true
  | Raise _ => false
  end.

(** The duration of the record, if any, converts to a double. *)
Definition duration_fits (data : Raw.Song.t) : bool :=
  match Raw.Song.duration data with
  | Some duration => fits_double duration
  | None => true
  end.

(** A sum that does not round, to run the model on records whose sum is a
    double as it stands. *)
Definition exact_sum : Float64 := λ t d, (t + Qc_of_Z d)%Qc.

(** ** Example records *)

Module Examples.

(** A reading of the clock: 1 700 000 000.25 s. *)
Definition now : Qc := Q2Qc (6800000001 # 4).

(** [{'id': 1, 'artists': [{'id': 2, 'name': 'A'}]}] *)
Definition artist_without_characters : Raw.Song.t :=
  Raw.Song.mk (Some 1) None None None None None
    (Some [Raw.Artist.mk (Some 2) (Some (lit "A")) None None None])
    None None.

(** [{'id': 1, 'played': 0}] *)
Definition never_played : Raw.Song.t :=
  Raw.Song.mk (Some 1) None None None (Some 0) None None None None.

(** [{'id': 1, 'played': 3}] *)
Definition played_thrice : Raw.Song.t :=
  Raw.Song.mk (Some 1) None None None (Some 3) None None None None.

(** [{'id': 1, 'sources': [{'name': 'x'}]}] *)
Definition source_without_id : Raw.Song.t :=
  Raw.Song.mk (Some 1) None None None None
    (Some [Raw.Source.mk None (Some (lit "x")) None None])
    None None None.

(** [{'title': 't'}] *)
Definition song_without_id : Raw.Song.t :=
  Raw.Song.mk None (Some (lit "t")) None None None None None None None.

(** [{'id': 1, 'duration': 120}] *)
Definition two_minutes : Raw.Song.t :=
  Raw.Song.mk (Some 1) None None (Some 120) None None None None None.

(** [{'id': 1, 'duration': 10 ** 18 + 63}] *)
Definition aeon : Raw.Song.t :=
  Raw.Song.mk (Some 1) None None (Some (10 ^ 18 + 63)) None None None None None.

(** [{'id': 1, 'duration': 10 ** 400}] *)
Definition beyond_doubles : Raw.Song.t :=
  Raw.Song.mk (Some 1) None None (Some (10 ^ 400)) None None None None None.

(** A source that has a romanised name only. *)
Definition romanised_only : Source.t :=
  Source.init 7 None (Some (lit "R")) None.

(** Artists [A] and [B], [B] voicing the character with id 1, and the
    song's own character list, in which character 1 is [C]. *)
Definition duet : Song.t :=
  Song.mk 5 None None
    (Some [Artist.init 10 (Some (lit "A")) None None None;
           Artist.init 11 (Some (lit "B")) None None
             (Some [Character.init 1 None None])])
    (Some [Character.init 1 (Some (lit "C")) None])
    None None 0 None None.

(** A song with artists, sources and albums and no character. *)
Definition plain : Song.t :=
  Song.mk 6 None
    (Some [Source.init 1 (Some (lit "S")) None None; romanised_only])
    (Some [Artist.init 10 (Some (lit "A")) (Some (lit "a")) None None;
           Artist.init 11 None None None None])
    None
    (Some [Album.init 3 (Some (lit "L")) (Some (lit "l")) None])
    None 0 None None.

(** A song whose only artist has no name at all. *)
Definition nameless : Song.t :=
  Song.mk 8 None None (Some [Artist.init 12 None None None None])
    None None None 0 None None.

End Examples.

(** ** The other classes of the module *)

(** [datetime]: the type of a parsed time and [datetime.fromisoformat],
    which the module imports.  [None] stands for the [ValueError] it raises
    on a string that is not in ISO format. *)
Class Datetime := {
  datetime : Type;
  fromisoformat : pystr → option datetime }.

Module Requester.

Record t := mk {
  uuid : pystr; username : pystr; display_name : pystr; link : pystr }.

(** The generated [__init__] followed by [__post_init__]. *)
Definition init uuid username display_name : t :=
  mk uuid username display_name (lit "https://listen.moe/u/" ++ username).

(** [Requester.from_data].  The raw requester is a JSON object with string
    values, a dictionary; [not data] holds for [None] and for the empty
    dictionary. *)
Definition from_data (data : option (gmap string pystr)) : result (option t) :=
  match data with
  | None => Ok None
  | Some data =>
      if decide (data = ∅) then Ok None
      else
        let* uuid := subscript "uuid" (data !! "uuid") in
        let* username := subscript "username" (data !! "username") in
        let* display_name := subscript "displayName" (data !! "displayName") in
        Ok (Some (init uuid username display_name))
  end.

End Requester.

Module RawFeed.
(** [{'type': ..., 'createdAt': ..., 'song': {...}}] *)
Record t := mk {
  type : option Z; createdAt : option pystr; song : option Raw.Song.t }.
End RawFeed.

Module SystemFeed.

Record t := mk { type : Z; created_at : pystr; song : Song.t }.

(** [SystemFeed.from_data] *)
Definition from_data `{Float64} (now : Qc) (data : RawFeed.t) : result t :=
  let* type := subscript "type" (RawFeed.type data) in
  let* created_at := subscript "createdAt" (RawFeed.createdAt data) in
  let* raw_song := subscript "song" (RawFeed.song data) in
  let* song := Song.from_data now raw_song in
  Ok (mk type created_at song).

End SystemFeed.

Module RawFrame.

(** The object under the key [d] of a websocket frame. *)
Module Payload.
Record t := mk {
  startTime : option pystr;
  listeners : option Z;
  requester : option (gmap string pystr);
  event : option pystr;
  song : option Raw.Song.t;
  lastPlayed : option (list Raw.Song.t) }.
End Payload.

(** [{'op': ..., 't': ..., 'd': {...}}]; [t_] is the key [t]. *)
Record t := mk { op : option Z; t_ : option pystr; d : option Payload.t }.

End RawFrame.

Module ListenWsData.

Record t `{Datetime} := mk {
  _op : Z;
  _t : pystr;
  song : Song.t;
  requester : option Requester.t;
  event : option pystr;
  start_time : datetime;
  last_played : list Song.t;
  listener : Z;
  last_heartbeat : Qc }.

(** What [ListenWsData.from_data] can raise: the exceptions of the calls it
    makes, and the [ValueError] of [datetime.fromisoformat]. *)
Inductive frame_exn :=
  | Inherited (e : exn)
  | ValueError (isoformat_string : pystr).

Inductive outcome (A : Type) :=
  | Returned (a : A)
  | Raised (e : frame_exn).
Global Arguments Returned {A} a.
Global Arguments Raised {A} e.

Definition lift {A} (r : result A) : outcome A :=
  match r with
  | Ok a => Returned a
  | Raise e => Raised (Inherited e)
  end.

Definition then_ {A B} (r : outcome A) (k : A → outcome B) : outcome B :=
  match r with
  | Returned a => k a
  | Raised e => Raised e
  end.

(** [[Song.from_data(song) for song in songs]].  Every call of
    [Song.from_data] that passes [data['id']] reads the clock once, so the
    call for the entry at position [i] reads [time (first + i)], [first]
    being the number of readings taken before the comprehension. *)
Fixpoint history `{Float64} (time : nat → Qc) (first : nat)
    (songs : list Raw.Song.t) : result (list Song.t) :=
  match songs with
  | [] => Ok []
  | song :: rest =>
      let* s := Song.from_data (time first) song in
      let* ss := history time (S first) rest in
      Ok (s :: ss)
  end.

(** [ListenWsData.from_data].  [time k] is the reading of the clock at the
    [k]-th call of [time()] made while the frame is normalised, and
    [import_time] the reading taken when the class was created, the default
    of [last_heartbeat]. *)
Definition from_data `{Float64} `{Datetime} (import_time : Qc) (time : nat → Qc)
    (data : RawFrame.t) : outcome t :=
  then_ (lift (subscript "op" (RawFrame.op data))) (λ _op,
  then_ (lift (subscript "t" (RawFrame.t_ data))) (λ _t,
  then_ (lift (subscript "d" (RawFrame.d data))) (λ d,
  then_ (lift (subscript "startTime" (RawFrame.Payload.startTime d))) (λ startTime,
  then_ (match fromisoformat startTime with
         | Some parsed => Returned parsed
         | None => Raised (ValueError startTime)
         end) (λ start_time,
  then_ (lift (subscript "listeners" (RawFrame.Payload.listeners d))) (λ listener,
  then_ (lift (Requester.from_data (RawFrame.Payload.requester d))) (λ requester,
  let event := RawFrame.Payload.event d in
  then_ (lift (subscript "song" (RawFrame.Payload.song d))) (λ raw_song,
  then_ (lift (Song.from_data (time 0%nat) raw_song)) (λ song,
  then_ (lift (subscript "lastPlayed" (RawFrame.Payload.lastPlayed d))) (λ raw_history,
  then_ (lift (history time 1 raw_history)) (λ last_played,
  Returned (mk _ _op _t song requester event start_time last_played listener
               import_time)))))))))))).

End ListenWsData.

Module MPVData.

Record t `{Datetime} := mk {
  start : datetime;
  track : option pystr;
  genre : option pystr;
  title : option pystr;
  artist : option pystr;
  year : option pystr;
  date : option pystr;
  album : option pystr;
  comment : option pystr;
  _ENCODER : pystr;
  _icy_br : pystr;
  _icy_genre : pystr;
  _icy_name : pystr;
  _icy_pub : pystr;
  _icy_url : pystr }.

(** [MPVData.from_metadata], with the reading [now] of
    [datetime.now(timezone.utc)].  The metadata is a dictionary of strings. *)
Definition from_metadata `{Datetime} (now : datetime) (data : gmap string pystr)
    : result t :=
  let start := now in
  let track := data !! "track" in
  let genre := data !! "genre" in
  let title := data !! "title" in
  let artist := data !! "artist" in
  let year := data !! "year" in
  let date := data !! "date" in
  let album := data !! "album" in
  let comment := data !! "comment" in
  let* _ENCODER := subscript "ENCODER" (data !! "ENCODER") in
  let* _icy_br := subscript "icy-br" (data !! "icy-br") in
  let* _icy_genre := subscript "icy-genre" (data !! "icy-genre") in
  let* _icy_name := subscript "icy-name" (data !! "icy-name") in
  let* _icy_pub := subscript "icy-pub" (data !! "icy-pub") in
  let* _icy_url := subscript "icy-url" (data !! "icy-url") in
  Ok (mk _ start track genre title artist year date album comment
         _ENCODER _icy_br _icy_genre _icy_name _icy_pub _icy_url).

(** The keys [from_metadata] reads by subscript, in the order it reads
    them. *)
Definition required : list string :=
  ["ENCODER"; "icy-br"; "icy-genre"; "icy-name"; "icy-pub"; "icy-url"].

(** The keys [from_metadata] reads with [.get]. *)
Definition optional : list string :=
  ["track"; "genre"; "title"; "artist"; "year"; "date"; "album"; "comment"].

End MPVData.

(** ** Reference definitions for the further properties *)

(** The code points a sanitised string is free of. *)
Definition marks : list cp := [U3099; U309A; U200B].

(** A string without combining sound marks and zero width spaces. *)
Definition clean (w : pystr) : Prop := Forall (λ c, c ∉ marks) w.

(** An optional string is clean when it is absent or holds a clean string. *)
Definition clean_opt (o : option pystr) : Prop :=
  match o with
  | Some w => clean w
  | None => True
  end.

(** The image of the first entry of a raw list, when that entry has a
    non-empty one. *)
Definition first_image {A} (image : A → option pystr) (field : option (list A))
    : option pystr :=
  match field with
  | Some (first :: _) => if truthy_str (image first) then image first else None
  | _ => None
  end.

(** A song with the expiry timestamp of another. *)
Definition with_time_end (s : Song.t) (time_end : Z) : Song.t :=
  Song.mk (Song.id s) (Song.title s) (Song.sources s) (Song.artists s)
    (Song.characters s) (Song.albums s) (Song.duration s) time_end
    (Song.played s) (Song.title_romaji s).

(** ** Example records, continued *)

Module Records.

(** A record with every kind of entry: a title and a source name that hold
    marks, an artist without and an artist with a voice role, an album
    without and an album with a cover, and the character of the role. *)
Definition full : Raw.Song.t :=
  Raw.Song.mk (Some 1)
    (Some (lit "t" ++ [U200B]))
    (Some (lit "t"))
    (Some 0)
    (Some 2)
    (Some [Raw.Source.mk (Some 3) (Some (lit "ka" ++ [U3099]))
             (Some (lit "ka" ++ [U3099])) (Some (lit "s.png"))])
    (Some [Raw.Artist.mk (Some 10) (Some (lit "A")) None None (Some []);
           Raw.Artist.mk (Some 11) (Some (lit "B")) None (Some (lit "b.png"))
             (Some [Raw.Character.mk (Some 1) (Some (lit "ignored")) None])])
    (Some [Raw.Album.mk (Some 7) (Some (lit "L")) None None;
           Raw.Album.mk (Some 8) None None (Some (lit "c.jpg"))])
    (Some [Raw.Character.mk (Some 1) (Some (lit "C")) None]).

(** [{'id': 1, 'albums': [{'id': 8, 'image': 'c.jpg'}]}] *)
Definition with_cover : Raw.Song.t :=
  Raw.Song.mk (Some 1) None None None None None None
    (Some [Raw.Album.mk (Some 8) None None (Some (lit "c.jpg"))]) None.

(** Another reading of the clock, and a floating-point sum that is off by
    one second. *)
Definition later : Qc := Q2Qc (6800000403 # 4).
Definition coarse_sum : Float64 := λ t d, (t + Qc_of_Z d + 1)%Qc.

End Records.

(** The first of [keys], in their order, that a dictionary lacks. *)
Fixpoint first_missing {V} (keys : list string) (data : gmap string V)
    : option string :=
  match keys with
  | [] => None
  | key :: rest =>
      match data !! key with
      | None => Some key
      | Some _ => first_missing rest data
      end
  end.

(** A stand-in for the parser of ISO times, to run the model: a time is the
    string itself, and the empty string is the one string it rejects. *)
Definition unparsed : Datetime :=
  {| datetime := pystr;
     fromisoformat := λ s, match s with [] => None | _ => Some s end |}.

Module Frames.

(** [{'uuid': 'u-1', 'username': 'kana', 'displayName': 'Kana'}] *)
Definition requester : gmap string pystr :=
  <["uuid" := lit "u-1"]> (<["username" := lit "kana"]>
    (<["displayName" := lit "Kana"]> ∅)).

(** [{'type': 1, 'createdAt': '2024-01-01T00:00:00Z', 'song': {...}}] *)
Definition feed : RawFeed.t :=
  RawFeed.mk (Some 1) (Some (lit "2024-01-01T00:00:00Z")) (Some Records.full).

(** A frame with a current song and two songs of history, the ids 4 and 2
    in this order, without a requester. *)
Definition frame : RawFrame.t :=
  RawFrame.mk (Some 1) (Some (lit "TRACK_UPDATE"))
    (Some (RawFrame.Payload.mk (Some (lit "2024-01-01T00:00:00Z")) (Some 250)
             None None (Some Records.full)
             (Some [Raw.Song.mk (Some 4) None None (Some 60) None None None None None;
                    Raw.Song.mk (Some 2) None None None None None None None None]))).

(** The same frame with a history entry that has no id. *)
Definition broken_history : RawFrame.t :=
  RawFrame.mk (Some 1) (Some (lit "TRACK_UPDATE"))
    (Some (RawFrame.Payload.mk (Some (lit "2024-01-01T00:00:00Z")) (Some 250)
             None None (Some Records.full)
             (Some [Raw.Song.mk (Some 4) None None (Some 60) None None None None None;
                    Examples.song_without_id]))).

(** The clock of the frames: one second passes between two readings. *)
Definition ticking (k : nat) : Qc := (Examples.now + Qc_of_Z (Z.of_nat k))%Qc.

(** The metadata of a stream, with a title and without the other tags. *)
Definition metadata : gmap string pystr :=
  <["title" := lit "Song"]> (<["ENCODER" := lit "Lavf"]>
    (<["icy-br" := lit "128"]> (<["icy-genre" := lit "J-Pop"]>
      (<["icy-name" := lit "LISTEN.moe"]> (<["icy-pub" := lit "1"]>
        (<["icy-url" := lit "https://listen.moe"]> ∅)))))).

End Frames.

(** The call returned a frame (it did not raise). *)
Definition returned {A} (o : ListenWsData.outcome A) : bool :=
  match o with
  | ListenWsData.Returned _ => true
  | ListenWsData.Raised _ => false
  end.

(** The raw history of a frame: the list under [d.lastPlayed]. *)
Definition history_of (data : RawFrame.t) : list Raw.Song.t :=
  default [] (RawFrame.d data ≫= RawFrame.Payload.lastPlayed).

(** The raw requester of a frame: the dictionary under [d.requester]. *)
Definition requester_of (data : RawFrame.t) : option (gmap string pystr) :=
  RawFrame.d data ≫= RawFrame.Payload.requester.

(** * Properties *)

(** ** Strings *)

Section Replace.

Lemma replace_single (c : cp) (new s : pystr) :
  replace [c] new s = s ≫= (λ x, if (c =? x)%N then new else [x]).
Proof.
  unfold replace.
  induction s as [|x s IH]; [done|].
  cbn [replace_go starts_with mbind list_bind length Nat.sub].
  rewrite andb_true_r, !IH.
  by destruct (c =? x)%N.
Qed.

Lemma bind_bind_char (f g : cp → pystr) (s : pystr) :
  (s ≫= f) ≫= g = s ≫= (λ c, f c ≫= g).
Proof.
  induction s as [|x s IH]; [done|].
  cbn [mbind list_bind]. by rewrite bind_app, IH.
Qed.

Lemma bind_ext_char (f g : cp → pystr) (s : pystr) :
  (∀ c, f c = g c) → s ≫= f = s ≫= g.
Proof. intros E. induction s as [|x s IH]; [done|]. cbn. by rewrite E, IH. Qed.

End Replace.

(** The three replacements of [_sanitise], one after the other, amount to
    one pass that treats every code point on its own. *)
Lemma sanitise_chain (w : pystr) :
  replace [U200B] [] (replace [U309A] [U309C] (replace [U3099] [U309B] w))
  = w ≫= sanitise_char.
Proof.
  rewrite !replace_single, !bind_bind_char.
  apply bind_ext_char. intros c. unfold sanitise_char.
  rewrite (N.eqb_sym U3099 c).
  destruct (c =? U3099)%N eqn:E1.
  { apply N.eqb_eq in E1. by subst c. }
  cbn [mbind list_bind app].
  rewrite (N.eqb_sym U309A c).
  destruct (c =? U309A)%N eqn:E2.
  { apply N.eqb_eq in E2. by subst c. }
  cbn [mbind list_bind app].
  rewrite (N.eqb_sym U200B c).
  by destruct (c =? U200B)%N.
Qed.

(** A sanitised code point is left alone by a second pass. *)
Lemma sanitise_char_fixed (c : cp) : sanitise_char c ≫= sanitise_char = sanitise_char c.
Proof.
  unfold sanitise_char at 2 3.
  destruct (c =? U3099)%N eqn:E1; [done|].
  destruct (c =? U309A)%N eqn:E2; [done|].
  destruct (c =? U200B)%N eqn:E3; [done|].
  cbn [mbind list_bind]. rewrite app_nil_r.
  unfold sanitise_char. by rewrite E1, E2, E3.
Qed.

Lemma sanitise_pass_idempotent (w : pystr) :
  (w ≫= sanitise_char) ≫= sanitise_char = w ≫= sanitise_char.
Proof.
  rewrite bind_bind_char. apply bind_ext_char, sanitise_char_fixed.
Qed.

(** ** [Song._sanitise] *)

Lemma sanitise_present (c : cp) (w : pystr) :
  Song._sanitise (Some (c :: w)) = Some ((c :: w) ≫= sanitise_char).
Proof. unfold Song._sanitise. by rewrite sanitise_chain. Qed.

(** C8, as stated, fails on the empty string: a present (empty) string goes
    in and [None] comes out, where the claim has the empty string come out. *)
Lemma sanitise_empty_string_absent :
  Song._sanitise (Some (lit "")) ≠ Some (lit "" ≫= sanitise_char).
Proof. discriminate. Qed.

(** C8 (amended).  [_sanitise] passes [None] through, turns the empty string
    into [None], and for every non-empty string returns the string in which
    every U+3099 is replaced by U+309B, every U+309A by U+309C, every U+200B
    is dropped and every other code point is kept as it is. *)
Theorem sanitise_characterised (word : option pystr) :
  Song._sanitise word =
    match word with
    | None => None
    | Some [] => None
    | Some w => Some (w ≫= sanitise_char)
    end
  ∧ sanitise_char U3099 = [U309B]
  ∧ sanitise_char U309A = [U309C]
  ∧ sanitise_char U200B = []
  ∧ ∀ c, c ∉ [U3099; U309A; U200B] → sanitise_char c = [c].
Proof.
  split; [|split; [done|split; [done|split; [done|]]]].
  - destruct word as [[|c w]|]; [done| |done]. apply sanitise_present.
  - intros c Hc. unfold sanitise_char.
    destruct (N.eqb_spec c U3099) as [->|_]; [set_solver|].
    destruct (N.eqb_spec c U309A) as [->|_]; [set_solver|].
    destruct (N.eqb_spec c U200B) as [->|_]; [set_solver|done].
Qed.

(** The letter A is none of the three code points and is kept. *)
Lemma sanitise_characterised_witness :
  ((0x41%N : cp) ∉ [U3099; U309A; U200B]) ∧ sanitise_char 0x41%N = [0x41%N].
Proof.
  split.
  - apply (bool_decide_unpack _). vm_compute. exact I.
  - destruct (sanitise_characterised None) as (_ & _ & _ & _ & kept).
    apply kept. apply (bool_decide_unpack _). vm_compute. exact I.
Defined.

(** C2, as stated, fails on a string made of a zero width space: its
    sanitised form is the empty string, which a second pass turns into
    [None]. *)
Lemma sanitise_not_idempotent_zero_width :
  Song._sanitise (Song._sanitise (Some [U200B])) ≠ Song._sanitise (Some [U200B]).
Proof. discriminate. Qed.

(** The sanitised form is the empty string exactly for the non-empty strings
    made of zero width spaces only. *)
Lemma sanitise_empty_result (word : option pystr) :
  Song._sanitise word = Some [] ↔
  ∃ w, word = Some w ∧ w ≠ [] ∧ Forall (λ c, c = U200B) w.
Proof.
  assert (Hnil : ∀ w : pystr, w ≫= sanitise_char = [] ↔ Forall (λ c, c = U200B) w).
  { induction w as [|c w IH]; [by split; [constructor|]|].
    cbn [mbind list_bind]. rewrite Forall_cons, <- IH. unfold sanitise_char.
    destruct (N.eqb_spec c U3099) as [->|?]; [by split; [|intros []]|].
    destruct (N.eqb_spec c U309A) as [->|?]; [by split; [|intros []]|].
    destruct (N.eqb_spec c U200B) as [->|?]; [by split; [|intros []]|].
    split; [done|]. by intros []. }
  destruct word as [[|c w]|].
  - split; [done|]. by intros (w & [= <-] & ? & _).
  - rewrite sanitise_present. split.
    + intros [= E]. exists (c :: w). by rewrite <- Hnil.
    + intros (w' & [= <-] & _ & E). f_equal. by apply Hnil.
  - split; [done|]. by intros (w & ? & _).
Qed.

(** C2 (amended).  A second sanitising pass changes nothing whenever the
    sanitised form of the input is not the empty string. *)
Theorem sanitise_idempotent_nonempty (word : option pystr) :
  Song._sanitise word ≠ Some [] →
  Song._sanitise (Song._sanitise word) = Song._sanitise word.
Proof.
  destruct word as [[|c w]|]; [done| |done].
  rewrite sanitise_present. intros Hne.
  destruct ((c :: w) ≫= sanitise_char) as [|c' w'] eqn:E; [done|].
  by rewrite sanitise_present, <- E, sanitise_pass_idempotent.
Qed.

(** A string with a combining mark and a zero width space. *)
Lemma sanitise_idempotent_nonempty_witness :
  let word := Some (lit "ka" ++ [U3099; U200B]) in
  Song._sanitise word ≠ Some [] ∧
  Song._sanitise (Song._sanitise word) = Song._sanitise word.
Proof.
  split.
  - vm_compute. discriminate.
  - apply sanitise_idempotent_nonempty. vm_compute. discriminate.
Defined.

(** ** The joiners *)

Lemma list_to_string_body_shown `{Item A} (romaji_first : bool)
    (lst_string : list pystr) (item : A) :
  Song._list_to_string_body romaji_first lst_string item =
  lst_string ++ shown (resolved_name romaji_first
                         (item_name item) (item_name_romaji item)).
Proof.
  unfold Song._list_to_string_body, resolved_name, shown.
  by repeat case_match; simplify_eq; rewrite ?app_nil_r.
Qed.

Lemma foldl_append {A} (f : A → list pystr) (g : list pystr → A → list pystr)
    (l : list A) (acc : list pystr) :
  (∀ acc a, g acc a = acc ++ f a) → foldl g acc l = acc ++ (l ≫= f).
Proof.
  intros Hg. revert acc.
  induction l as [|a l IH]; intros acc; cbn [foldl mbind list_bind].
  - by rewrite app_nil_r.
  - by rewrite IH, Hg, <- app_assoc.
Qed.

Lemma list_to_string_joined `{Item A} (lst : option (list A))
    (romaji_first : bool) (sep : pystr) :
  Song._list_to_string lst romaji_first sep = joined_names romaji_first sep lst.
Proof.
  destruct lst as [[|item l]|]; [done| |done].
  unfold Song._list_to_string, joined_names.
  by rewrite (foldl_append _ _ _ _ (list_to_string_body_shown romaji_first)).
Qed.

(** Without a cross-reference to make, the loop body of [artists_to_string]
    does what the body of [_list_to_string] does. *)
Lemma artists_body_plain (self : Song.t) (romaji_first : bool)
    (character_map : gmap Z Character.t) (st : Song.loop_vars) (artist : Artist.t) :
  truthy_list (Song.characters self) && truthy_list (Artist.character artist) = false →
  Song.artists_to_string_body self romaji_first character_map st artist =
  Song.vars (Song.char_name st)
    (Song._list_to_string_body romaji_first (Song.lst_string st) artist).
Proof.
  unfold Song.artists_to_string_body, Song._list_to_string_body. cbn.
  intros Hno. destruct st as [cn ls]. cbn.
  destruct (truthy_list (Song.characters self)); cbn in Hno.
  - destruct (Artist.character artist) as [[|p ps]|]; [|done|];
      by repeat case_match.
  - by repeat case_match.
Qed.

Lemma artists_loop_plain (self : Song.t) (romaji_first : bool)
    (character_map : gmap Z Character.t) (l : list Artist.t) (st : Song.loop_vars) :
  truthy_list (Song.characters self)
  && existsb (λ artist, truthy_list (Artist.character artist)) l = false →
  Song.lst_string
    (foldl (Song.artists_to_string_body self romaji_first character_map) st l) =
  foldl (Song._list_to_string_body romaji_first) (Song.lst_string st) l.
Proof.
  revert st. induction l as [|a l IH]; intros st Hno; [done|].
  cbn [foldl existsb] in *.
  rewrite andb_orb_distrib_r in Hno. apply orb_false_elim in Hno as [Ha Hl].
  by rewrite artists_body_plain, IH.
Qed.

(** The dictionary [artists_to_string] builds maps an id to the last
    character of the list with that id. *)
Lemma character_map_lookup (characters : list Character.t) (id : Z) :
  foldl (λ (character_map : gmap Z Character.t) character,
           <[Character.id character := character]> character_map) ∅ characters
    !! id
  = lookup_character characters id.
Proof.
  unfold lookup_character.
  induction characters as [|c cs IH] using rev_ind; [done|].
  rewrite foldl_app, filter_app. cbn [foldl].
  rewrite lookup_insert, filter_cons, filter_nil. case_decide as Hid.
  - by rewrite last_snoc.
  - by rewrite app_nil_r.
Qed.

(** The inner loop of [artists_to_string] over the placeholders of an
    artist: a placeholder that resolves sets [char_name], one that does not
    leaves it as it is. *)
Lemma placeholders_unresolved (character_map : gmap Z Character.t)
    (shown_as : Character.t → option pystr) (char_name : option pystr)
    (placeholders : list Character.t) :
  Forall (λ p, character_map !! Character.id p = None) placeholders →
  foldl (λ char_name character,
     match character_map !! Character.id character with
     | Some char => shown_as char
     | None => char_name
     end) char_name placeholders
  = char_name.
Proof.
  induction 1 as [|p ps Hp _ IH]; [done|]. cbn [foldl]. by rewrite Hp.
Qed.

(** The map of a song with a non-empty character list. *)
Lemma character_map_of_song (cs : list Character.t) :
  cs ≠ [] →
  match Some cs with
  | None | Some [] => (∅ : gmap Z Character.t)
  | Some characters =>
      foldl (λ (character_map : gmap Z Character.t) character,
               <[Character.id character := character]> character_map)
            ∅ characters
  end
  = foldl (λ (character_map : gmap Z Character.t) character,
             <[Character.id character := character]> character_map) ∅ cs.
Proof. by destruct cs. Qed.

(** The inner loop of [artists_to_string] over the placeholders of an
    artist leaves the name of the character of the last placeholder that
    resolves. *)
Lemma placeholders_role_name (romaji_first : bool) (cs : list Character.t)
    (character_map : gmap Z Character.t) (carried : option pystr)
    (placeholders : list Character.t) :
  (∀ id, character_map !! id = lookup_character cs id) →
  foldl (λ char_name character,
     match character_map !! Character.id character with
     | Some char =>
         if romaji_first then
           if truthy_str (Character.name_romaji char)
           then Character.name_romaji char
           else Character.name char
         else Character.name char
     | None => char_name
     end) carried placeholders
  = role_name romaji_first cs carried placeholders.
Proof.
  intros Hmap. unfold role_name, last_resolved.
  induction placeholders as [|p ps IH] using rev_ind; [done|].
  rewrite foldl_app, omap_app. cbn -[lookup_character last]. rewrite Hmap.
  destruct (lookup_character cs (Character.id p)) as [c|].
  - by rewrite last_snoc.
  - by rewrite app_nil_r.
Qed.

(** The loop of [artists_to_string] appends the entries of the artists. *)
Lemma artists_loop_entries (self : Song.t) (romaji_first : bool)
    (character_map : gmap Z Character.t) (l : list Artist.t)
    (st : Song.loop_vars) :
  (∀ cs id, Song.characters self = Some cs →
            character_map !! id = lookup_character cs id) →
  Song.lst_string
    (foldl (Song.artists_to_string_body self romaji_first character_map) st l)
  = Song.lst_string st
    ++ artist_entries romaji_first (Song.characters self) (Song.char_name st) l.
Proof.
  intros Hmap. revert st.
  induction l as [|a l IH]; intros st; cbn [foldl artist_entries].
  { by rewrite app_nil_r. }
  rewrite IH. unfold Song.artists_to_string_body.
  destruct (Song.characters self) as [[|c cs]|] eqn:Hcs; cbn [truthy_list].
  1, 3: by unfold resolved_name, shown; repeat case_match; simplify_eq;
          cbn [Song.lst_string Song.char_name]; rewrite ?app_nil_r, <- ?app_assoc.
  destruct (Artist.character a) as [[|p ps]|].
  1, 3: by unfold resolved_name, shown; repeat case_match; simplify_eq;
          cbn [Song.lst_string Song.char_name]; rewrite ?app_nil_r, <- ?app_assoc.
  rewrite (placeholders_role_name romaji_first (c :: cs)) by eauto.
  unfold voice_entry, resolved_name.
  by repeat case_match; simplify_eq;
    cbn [Song.lst_string Song.char_name]; rewrite ?app_nil_r, <- ?app_assoc.
Qed.

(** [artists_to_string] joins the entries of the artists. *)
Lemma artists_to_string_display (self : Song.t) (romaji_first : bool)
    (sep : pystr) :
  Song.artists_to_string self romaji_first sep
  = artists_display romaji_first sep self.
Proof.
  unfold Song.artists_to_string, artists_display.
  destruct (Song.artists self) as [[|a l]|]; [done| |done].
  rewrite artists_loop_entries; [done|].
  intros cs id ->. destruct cs as [|c cs]; [done|].
  apply character_map_lookup.
Qed.

(** C3, as stated, fails when the localised name is preferred and absent:
    the joiner does not fall back to the romanised name, the entry is
    skipped. *)
Lemma localised_preference_has_no_fallback :
  let source := Examples.romanised_only in
  Song._list_to_string (Some [source]) false (lit ", ")
  ≠ Some (join (lit ", ")
            (shown (preferred_with_fallback false
                      (Source.name source) (Source.name_romaji source)))).
Proof. vm_compute. discriminate. Qed.

(** C3 (amended).  The display name of an artist, source or album entry is
    its romanised name when romanised names are preferred and the entry has
    a non-empty one, and its localised name otherwise; there is no fallback
    from an absent localised name to the romanised one.
    [sources_to_string], [albums_to_string] and [artists_to_string] resolve
    names in this one way, for both values of the flag: the first two join
    the names of their entries, and so does the third on a song without
    voice roles; on any song it joins the entries of the artists, in which
    the name of an artist and the name of the character it is shown with
    are resolved in that same way. *)
Theorem display_names_by_preference (self : Song.t) (romaji_first : bool)
    (sep : pystr) :
  Song.sources_to_string self romaji_first sep
    = joined_names romaji_first sep (Song.sources self)
  ∧ Song.albums_to_string self romaji_first sep
    = joined_names romaji_first sep (Song.albums self)
  ∧ Song.artists_to_string self romaji_first sep
    = artists_display romaji_first sep self
  ∧ (voice_roles self = false →
     Song.artists_to_string self romaji_first sep
     = joined_names romaji_first sep (Song.artists self)).
Proof.
  split; [apply list_to_string_joined|]. split; [apply list_to_string_joined|].
  split; [apply artists_to_string_display|].
  intros Hno. rewrite <- list_to_string_joined.
  unfold Song.artists_to_string, Song._list_to_string, voice_roles in *.
  destruct (Song.artists self) as [[|a l]|]; [done| |done].
  cbn [default] in Hno. by rewrite artists_loop_plain.
Qed.

(** [Examples.plain], with either preference, and the voice role of
    [Examples.duet]. *)
Lemma display_names_by_preference_witness :
  voice_roles Examples.plain = false
  ∧ Song.artists_to_string Examples.plain true (lit ", ") = Some (lit "a")
  ∧ Song.sources_to_string Examples.plain false (lit ", ") = Some (lit "S")
  ∧ Song.albums_to_string Examples.plain true (lit ", ") = Some (lit "l")
  ∧ Song.artists_to_string Examples.duet true (lit ", ")
    = Some (lit "A, C (CV: B)").
Proof.
  split; [reflexivity|].
  destruct (display_names_by_preference Examples.plain true (lit ", "))
    as (_ & Halbums & _ & Hartists).
  destruct (display_names_by_preference Examples.plain false (lit ", "))
    as (Hsources & _).
  destruct (display_names_by_preference Examples.duet true (lit ", "))
    as (_ & _ & Hduet & _).
  split; [exact (Hartists eq_refl)|]. split; [exact Hsources|].
  split; [exact Halbums|exact Hduet].
Defined.

(** An artist whose display name is falsy adds nothing to [lst_string]. *)
Lemma artists_body_skipped (self : Song.t) (romaji_first : bool)
    (character_map : gmap Z Character.t) (st : Song.loop_vars) (artist : Artist.t) :
  truthy_str (resolved_name romaji_first
                (Artist.name artist) (Artist.name_romaji artist)) = false →
  Song.lst_string
    (Song.artists_to_string_body self romaji_first character_map st artist)
  = Song.lst_string st.
Proof.
  unfold Song.artists_to_string_body, resolved_name. cbn.
  intros Hfalsy. by repeat case_match; simplify_eq.
Qed.

(** C10.  [artists_to_string] returns [None] exactly when the artist list is
    absent or empty; for a non-empty artist list in which every entry is
    skipped because its display name is absent (or empty), it returns the
    empty string. *)
Theorem artists_to_string_all_skipped (self : Song.t) (romaji_first : bool)
    (sep : pystr) :
  (Song.artists_to_string self romaji_first sep = None
   ↔ Song.artists self = None ∨ Song.artists self = Some [])
  ∧ (truthy_list (Song.artists self) = true →
     forallb (λ artist,
                negb (truthy_str (resolved_name romaji_first
                        (Artist.name artist) (Artist.name_romaji artist))))
       (default [] (Song.artists self)) = true →
     Song.artists_to_string self romaji_first sep = Some (lit "")).
Proof.
  unfold Song.artists_to_string.
  destruct (Song.artists self) as [[|a l]|].
  - split; [by split; [right|]|done].
  - split; [by split; [|intros [|]]|].
    intros _ Hall. cbn [default] in Hall.
    set (body := Song.artists_to_string_body self romaji_first _).
    enough (Hloop : ∀ (l : list Artist.t) st,
              forallb (λ artist,
                negb (truthy_str (resolved_name romaji_first
                        (Artist.name artist) (Artist.name_romaji artist)))) l = true →
              Song.lst_string (foldl body st l) = Song.lst_string st)
      by (by rewrite (Hloop (a :: l))).
    clear. intros l. induction l as [|a l IH]; intros st Hall; [done|].
    cbn [foldl forallb] in *. apply andb_prop in Hall as [Ha Hl].
    rewrite IH by done. apply artists_body_skipped. by apply negb_true_iff.
  - split; [by split; [left|]|done].
Qed.

(** [Examples.nameless]: one artist, no name, the empty string. *)
Lemma artists_to_string_all_skipped_witness :
  Song.artists_to_string Examples.nameless true (lit ", ") = Some (lit "").
Proof.
  apply (artists_to_string_all_skipped Examples.nameless true (lit ", "));
    reflexivity.
Defined.

(** ** [Song._get_image] *)

(** C6.  [_get_image] returns [None] for an absent or empty list; otherwise
    the first entry decides: its image name or URL when it has an image, and
    [None] when it has none, whatever the later entries hold.  For albums
    [[{image: absent}, {image: Link}]] the result is [None]. *)
Theorem get_image_first_gap_stops :
  (∀ A (HA : Item A) (lst : option (list A)) (url : bool),
     Song._get_image lst url =
       match lst with
       | None => None
       | Some [] => None
       | Some (first :: later) =>
           match item_image first with
           | None => None
           | Some image => Some (if url then Link.url image else Link.name image)
           end
       end)
  ∧ (∀ (self : Song.t) id1 name1 romaji1 link1 (second : Album.t) later url,
       Song.albums self
         = Some (Album.mk id1 name1 romaji1 None link1 :: second :: later) →
       Song.album_image self url = None).
Proof.
  assert (Hfirst : ∀ A (HA : Item A) (lst : option (list A)) (url : bool),
     Song._get_image lst url =
       match lst with
       | None => None
       | Some [] => None
       | Some (first :: later) =>
           match item_image first with
           | None => None
           | Some image => Some (if url then Link.url image else Link.name image)
           end
       end).
  { intros A HA [[|first later]|] url; [done| |done].
    unfold Song._get_image. cbn [for_each].
    by destruct (item_image first). }
  split; [exact Hfirst|].
  intros self id1 name1 romaji1 link1 second later url Halbums.
  unfold Song.album_image. by rewrite Hfirst, Halbums.
Qed.

(** Two albums, the second one alone with a cover. *)
Lemma get_image_first_gap_stops_witness :
  let cover := Link.mk (lit "c.jpg") (lit "https://cdn.listen.moe/covers/c.jpg") in
  let self :=
    Song.mk 9 None None None None
      (Some [Album.init 1 (Some (lit "first")) None None;
             Album.init 2 (Some (lit "second")) None (Some cover)])
      None 0 None None in
  Song.album_image self true = None ∧ Song.album_image self false = None.
Proof.
  split; by eapply (proj2 get_image_first_gap_stops).
Defined.

(** ** Voice roles in [artists_to_string] *)

(** C9.  For a song with two artists, the first without character
    placeholders and the second with one placeholder whose id is that of the
    one character of the song, [artists_to_string] with the localised names
    preferred returns the first artist's name, the separator, and
    ["<character name> (CV: <second artist's name>)"].  With the names A, B
    and C and the separator [", "] this is ["A, C (CV: B)"]. *)
Theorem voice_role_entry (self : Song.t) (a b : Artist.t) (p c : Character.t)
    (na nb nc sep : pystr) :
  Song.artists self = Some [a; b] →
  Song.characters self = Some [c] →
  Artist.name a = Some na → na ≠ [] →
  Artist.character a = None →
  Artist.name b = Some nb → nb ≠ [] →
  Artist.character b = Some [p] →
  Character.id p = Character.id c →
  Character.name c = Some nc → nc ≠ [] →
  Song.artists_to_string self false sep
  = Some (na ++ sep ++ nc ++ lit " (CV: " ++ nb ++ lit ")").
Proof.
  intros Hartists Hchars Hna Hna' Hca Hnb Hnb' Hcb Hid Hnc Hnc'.
  unfold Song.artists_to_string. rewrite Hartists, Hchars.
  cbn [foldl]. unfold Song.artists_to_string_body.
  rewrite Hchars. cbn [truthy_list Song.char_name Song.lst_string].
  rewrite Hca, Hna, Hcb, Hnb. cbn [foldl].
  rewrite Hid, lookup_insert_eq, Hnc.
  destruct na as [|? ?]; [done|]. destruct nb as [|? ?]; [done|].
  destruct nc as [|? ?]; [done|].
  cbn [Song.lst_string app join]. done.
Qed.

(** The example of the design document. *)
Lemma voice_role_entry_witness :
  Song.artists_to_string Examples.duet false (lit ", ")
  = Some (lit "A, C (CV: B)").
Proof.
  apply (voice_role_entry Examples.duet
           (Artist.init 10 (Some (lit "A")) None None None)
           (Artist.init 11 (Some (lit "B")) None None
              (Some [Character.init 1 None None]))
           (Character.init 1 None None)
           (Character.init 1 (Some (lit "C")) None)
           (lit "A") (lit "B") (lit "C") (lit ", "));
    first [reflexivity | discriminate].
Defined.

(** ** Comprehensions that can raise *)

Section Comprehension.
Context {A B : Type} (f : A → result B) (ok : A → bool).

Lemma comprehension_is_ok (l : list A) :
  (∀ a, is_ok (f a) = ok a) →
  is_ok (comprehension f l) = forallb ok l.
Proof.
  intros Hok. induction l as [|a l IH]; cbn [comprehension forallb]; [done|].
  rewrite <- Hok, <- IH.
  by destruct (f a), (comprehension f l).
Qed.

Lemma comprehension_key_error (key : string) (l : list A) :
  (∀ a k, f a = Raise (KeyError k) → k = key ∧ ok a = false) →
  ∀ k, comprehension f l = Raise (KeyError k) → k = key ∧ forallb ok l = false.
Proof.
  intros Hf k. induction l as [|a l IH]; cbn [comprehension forallb]; [done|].
  destruct (f a) as [b|e] eqn:Ea; cbn.
  - destruct (comprehension f l) as [bs|e]; cbn; [done|].
    intros [= ->]. destruct IH as [-> ->]; [done|]. by rewrite andb_false_r.
  - intros [= ->]. by destruct (Hf a k Ea) as [-> ->].
Qed.

End Comprehension.

(** ** The [_get_*] helpers *)

Section Getter.
Context {A B : Type} (entry : A → result B) (ok : A → bool).

Lemma getter_is_ok (field : option (list A)) :
  (∀ a, is_ok (entry a) = ok a) →
  is_ok (getter entry field) = forallb ok (default [] field).
Proof.
  intros Hok. destruct field as [[|a l]|]; cbn -[comprehension forallb]; try done.
  rewrite <- (comprehension_is_ok entry ok (a :: l) Hok).
  by destruct (comprehension entry (a :: l)).
Qed.

Lemma getter_key_error (key : string) (field : option (list A)) :
  (∀ a k, entry a = Raise (KeyError k) → k = key ∧ ok a = false) →
  ∀ k, getter entry field = Raise (KeyError k) →
       k = key ∧ forallb ok (default [] field) = false.
Proof.
  intros Hentry k. destruct field as [[|a l]|]; cbn -[comprehension forallb]; try done.
  destruct (comprehension entry (a :: l)) as [bs|e] eqn:E; cbn; [done|].
  intros [= ->]. by apply (comprehension_key_error entry ok key (a :: l)).
Qed.

(** An absent or empty field gives [None]. *)
Lemma getter_absent (field : option (list A)) :
  truthy_list field = false → getter entry field = Ok None.
Proof. unfold getter. by intros ->. Qed.

End Getter.

Lemma source_entry_ok (source : Raw.Source.t) :
  is_ok (Song.source_entry source) = present (Raw.Source.id source).
Proof. unfold Song.source_entry. by destruct (Raw.Source.id source). Qed.

Lemma album_entry_ok (album : Raw.Album.t) :
  is_ok (Song.album_entry album) = present (Raw.Album.id album).
Proof. unfold Song.album_entry. by destruct (Raw.Album.id album). Qed.

Lemma character_entry_ok (character : Raw.Character.t) :
  is_ok (Song.character_entry character) = present (Raw.Character.id character).
Proof. unfold Song.character_entry. by destruct (Raw.Character.id character). Qed.

Lemma placeholder_entry_ok (character : Raw.Character.t) :
  is_ok (Song.placeholder_entry character) = present (Raw.Character.id character).
Proof. unfold Song.placeholder_entry. by destruct (Raw.Character.id character). Qed.

(** What an artist entry needs to be built: its own id, a [characters]
    list, and an id in every entry of that list. *)
Lemma artist_entry_ok (artist : Raw.Artist.t) :
  is_ok (Song.artist_entry artist)
  = (present (Raw.Artist.id artist)
     && forallb (λ character, present (Raw.Character.id character))
          (default [] (Raw.Artist.characters artist)))
    && present (Raw.Artist.characters artist).
Proof.
  unfold Song.artist_entry.
  destruct (Raw.Artist.id artist) as [id|]; cbn -[comprehension forallb]; [|done].
  destruct (Raw.Artist.characters artist) as [[|c l]|];
    cbn -[comprehension forallb]; [done| |by rewrite andb_false_r].
  rewrite andb_true_r,
    <- (comprehension_is_ok Song.placeholder_entry _ (c :: l) placeholder_entry_ok).
  by destruct (comprehension Song.placeholder_entry (c :: l)).
Qed.

Lemma source_entry_key_error (source : Raw.Source.t) (k : string) :
  Song.source_entry source = Raise (KeyError k) →
  k = "id" ∧ present (Raw.Source.id source) = false.
Proof.
  unfold Song.source_entry. destruct (Raw.Source.id source); cbn; [done|].
  by intros [= <-].
Qed.

Lemma album_entry_key_error (album : Raw.Album.t) (k : string) :
  Song.album_entry album = Raise (KeyError k) →
  k = "id" ∧ present (Raw.Album.id album) = false.
Proof.
  unfold Song.album_entry. destruct (Raw.Album.id album); cbn; [done|].
  by intros [= <-].
Qed.

Lemma character_entry_key_error (character : Raw.Character.t) (k : string) :
  Song.character_entry character = Raise (KeyError k) →
  k = "id" ∧ present (Raw.Character.id character) = false.
Proof.
  unfold Song.character_entry. destruct (Raw.Character.id character); cbn; [done|].
  by intros [= <-].
Qed.

Lemma placeholder_entry_key_error (character : Raw.Character.t) (k : string) :
  Song.placeholder_entry character = Raise (KeyError k) →
  k = "id" ∧ present (Raw.Character.id character) = false.
Proof.
  unfold Song.placeholder_entry. destruct (Raw.Character.id character); cbn; [done|].
  by intros [= <-].
Qed.

Lemma artist_entry_key_error (artist : Raw.Artist.t) (k : string) :
  Song.artist_entry artist = Raise (KeyError k) →
  k = "id"
  ∧ present (Raw.Artist.id artist)
    && forallb (λ character, present (Raw.Character.id character))
         (default [] (Raw.Artist.characters artist)) = false.
Proof.
  unfold Song.artist_entry.
  destruct (Raw.Artist.id artist) as [id|]; cbn -[comprehension forallb];
    [|by intros [= <-]].
  destruct (Raw.Artist.characters artist) as [[|c l]|];
    cbn -[comprehension forallb]; try done.
  destruct (comprehension Song.placeholder_entry (c :: l)) as [bs|e] eqn:E;
    cbn; [done|].
  intros [= ->].
  by apply (comprehension_key_error Song.placeholder_entry _ "id" (c :: l)
              placeholder_entry_key_error).
Qed.

(** ** [Song.from_data] *)

Lemma forallb_andb {A} (f g : A → bool) (l : list A) :
  forallb (λ a, f a && g a) l = forallb f l && forallb g l.
Proof.
  induction l as [|a l IH]; [done|]. cbn. rewrite IH.
  destruct (f a), (g a), (forallb f l), (forallb g l); done.
Qed.

(** The sum raises for the durations that do not convert, whatever the
    clock and the sum. *)
Lemma expiry_is_ok `{Float64} (now : Qc) (data : Raw.Song.t) :
  is_ok (Song.expiry now (Raw.Song.duration data)) = duration_fits data.
Proof.
  unfold Song.expiry, duration_fits.
  destruct (Raw.Song.duration data) as [[|d|d]|]; [by vm_compute | | | done].
  all: by destruct (fits_double _).
Qed.

Lemma expiry_raises `{Float64} (now : Qc) (duration : option Z) (e : exn) :
  Song.expiry now duration = Raise e →
  e = OverflowError "int too large to convert to float"
  ∧ ∃ d, duration = Some d ∧ fits_double d = false.
Proof.
  unfold Song.expiry.
  destruct duration as [[|d|d]|]; [done | | | done].
  all: destruct (fits_double _) eqn:E; [done |].
  all: intros [= <-]; eauto.
Qed.

Lemma duration_fits_spec (data : Raw.Song.t) :
  duration_fits data = true
  ↔ ∀ duration, Raw.Song.duration data = Some duration →
      Z.abs duration < 2 ^ 1024 - 2 ^ 970.
Proof.
  unfold duration_fits, fits_double.
  destruct (Raw.Song.duration data) as [d|]; [| done].
  rewrite Z.ltb_lt. split; [by intros ? ? [= <-] | auto].
Qed.

(** Normalisation returns a song exactly for the records that have a song
    id, a duration that converts to a double if they have one, an id in
    every entry, and a [characters] list in every artist entry. *)
Lemma from_data_is_ok `{Float64} (now : Qc) (data : Raw.Song.t) :
  is_ok (Song.from_data now data)
  = present (Raw.Song.id data) && duration_fits data && entries_have_ids data
    && artists_have_character_lists data.
Proof.
  pose proof (getter_is_ok _ _ (Raw.Song.sources data) source_entry_ok) as Hs.
  pose proof (getter_is_ok _ _ (Raw.Song.artists data) artist_entry_ok) as Ha.
  pose proof (getter_is_ok _ _ (Raw.Song.albums data) album_entry_ok) as Hl.
  pose proof (getter_is_ok _ _ (Raw.Song.characters data) character_entry_ok) as Hc.
  rewrite forallb_andb in Ha.
  unfold Song.from_data, entries_have_ids, artists_have_character_lists.
  rewrite <- Hs, <- Hl, <- Hc.
  change (getter Song.source_entry (Raw.Song.sources data))
    with (Song._get_sources data) in *.
  change (getter Song.artist_entry (Raw.Song.artists data))
    with (Song._get_artists data) in *.
  change (getter Song.album_entry (Raw.Song.albums data))
    with (Song._get_albums data) in *.
  change (getter Song.character_entry (Raw.Song.characters data))
    with (Song._get_characters data) in *.
  destruct (Raw.Song.id data) as [id|]; cbn; [|done].
  rewrite <- (expiry_is_ok now data).
  destruct (Song.expiry now (Raw.Song.duration data)); cbn; [|done].
  destruct (Song._get_sources data); cbn; [|done].
  destruct (Song._get_artists data); cbn in *.
  - symmetry in Ha. apply andb_prop in Ha as [-> ->].
    by destruct (Song._get_albums data), (Song._get_characters data).
  - symmetry in Ha. symmetry. apply andb_false_iff in Ha as [->| ->]; [done|].
    apply andb_false_r.
Qed.

(** The fields of the song [from_data] returns. *)
Lemma from_data_ok_inv `{Float64} (now : Qc) (data : Raw.Song.t) (s : Song.t) :
  Song.from_data now data = Ok s →
  ∃ id time_end sources artists albums characters,
    Raw.Song.id data = Some id
    ∧ Song.expiry now (Raw.Song.duration data) = Ok time_end
    ∧ Song._get_sources data = Ok sources
    ∧ Song._get_artists data = Ok artists
    ∧ Song._get_albums data = Ok albums
    ∧ Song._get_characters data = Ok characters
    ∧ s = Song.mk id (Song._get_title data) sources artists characters albums
            (Raw.Song.duration data) time_end
            (if truthy_int (Raw.Song.played data) then Raw.Song.played data
             else None)
            (if truthy_str (Raw.Song.titleRomaji data)
             then Raw.Song.titleRomaji data else None).
Proof.
  unfold Song.from_data.
  destruct (Raw.Song.id data) as [id|]; cbn; [|done].
  destruct (Song.expiry now (Raw.Song.duration data)) as [time_end|]; cbn; [|done].
  destruct (Song._get_sources data) as [sources|]; cbn; [|done].
  destruct (Song._get_artists data) as [artists|]; cbn; [|done].
  destruct (Song._get_albums data) as [albums|]; cbn; [|done].
  destruct (Song._get_characters data) as [characters|]; cbn; [|done].
  intros [= <-]. by exists id, time_end, sources, artists, albums, characters.
Qed.

(** A record that normalises gives absent fields for its absent (or empty)
    sub-records. *)
Lemma from_data_absent_fields `{Float64} (now : Qc) (data : Raw.Song.t) (s : Song.t) :
  Song.from_data now data = Ok s →
  (truthy_list (Raw.Song.sources data) = false → Song.sources s = None)
  ∧ (truthy_list (Raw.Song.artists data) = false → Song.artists s = None)
  ∧ (truthy_list (Raw.Song.albums data) = false → Song.albums s = None)
  ∧ (truthy_list (Raw.Song.characters data) = false → Song.characters s = None)
  ∧ (Raw.Song.title data = None → Song.title s = None)
  ∧ (Raw.Song.titleRomaji data = None → Song.title_romaji s = None)
  ∧ (Raw.Song.duration data = None → Song.duration s = None)
  ∧ (Raw.Song.played data = None → Song.played s = None).
Proof.
  intros Hok.
  apply from_data_ok_inv in Hok
    as (id & time_end & sources & artists & albums & characters
        & _ & _ & Hs & Ha & Hl & Hc & ->).
  cbn [Song.sources Song.artists Song.albums Song.characters Song.title
       Song.title_romaji Song.duration Song.played].
  repeat split.
  - intros Hno. apply (getter_absent Song.source_entry) in Hno.
    change (Song._get_sources data = Ok None) in Hno. congruence.
  - intros Hno. apply (getter_absent Song.artist_entry) in Hno.
    change (Song._get_artists data = Ok None) in Hno. congruence.
  - intros Hno. apply (getter_absent Song.album_entry) in Hno.
    change (Song._get_albums data = Ok None) in Hno. congruence.
  - intros Hno. apply (getter_absent Song.character_entry) in Hno.
    change (Song._get_characters data = Ok None) in Hno. congruence.
  - unfold Song._get_title. by intros ->.
  - by intros ->.
  - done.
  - by intros ->.
Qed.

(** C1.  The record [{'id': 1, 'artists': [{'id': 2, 'name': 'A'}]}] has a
    song id and an artist entry without a [characters] list.  Normalising it
    raises [TypeError], from [len(None)] in [_get_artists]: no song with an
    artist of absent character list is returned.  The same holds for every
    record in which some artist entry has no [characters] list: normalising
    it raises. *)
Theorem artist_without_characters_raises `{Float64} (now : Qc) :
  Song.from_data now Examples.artist_without_characters
  = Raise (TypeError "object of type 'NoneType' has no len()")
  ∧ ∀ data, artists_have_character_lists data = false →
            is_ok (Song.from_data now data) = false.
Proof.
  split; [reflexivity|].
  intros data Hno. rewrite from_data_is_ok, Hno. apply andb_false_r.
Qed.

(** The record of the first part has an artist entry without the list. *)
Lemma artist_without_characters_raises_witness :
  artists_have_character_lists Examples.artist_without_characters = false
  ∧ is_ok (Song.from_data (H := exact_sum) Examples.now
             Examples.artist_without_characters) = false.
Proof.
  split; [reflexivity|].
  apply (artist_without_characters_raises (H := exact_sum) Examples.now).
  reflexivity.
Defined.

(** C4, as stated, fails on a play count of 0: the record has a play count
    and the song has none. *)
Lemma zero_play_count_dropped :
  ∃ s, Song.from_data (H := exact_sum) Examples.now Examples.never_played = Ok s
       ∧ Song.played s = None
       ∧ Song.played s ≠ Raw.Song.played Examples.never_played.
Proof. eexists. split; [reflexivity|]. split; [reflexivity|discriminate]. Qed.

(** C4 (amended).  A play count other than 0 is carried into the song
    unchanged; a record without a play count, or with the play count 0,
    gives a song whose play count is absent. *)
Theorem play_count_carried `{Float64} (now : Qc) (data : Raw.Song.t) (s : Song.t) :
  Song.from_data now data = Ok s →
  Song.played s =
    match Raw.Song.played data with
    | None => None
    | Some 0 => None
    | Some played => Some played
    end.
Proof.
  intros Hok. apply from_data_ok_inv in Hok as (? & ? & ? & ? & ? & ? & _ & _ & _ & _ & _ & _ & ->).
  cbn. by destruct (Raw.Song.played data) as [[| |]|].
Qed.

(** A play count of 3 is carried through. *)
Lemma play_count_carried_witness :
  ∃ s, Song.from_data (H := exact_sum) Examples.now Examples.played_thrice = Ok s
       ∧ Song.played s = Some 3.
Proof.
  eexists. split; [reflexivity|].
  exact (play_count_carried (H := exact_sum) Examples.now Examples.played_thrice
           _ eq_refl).
Defined.

(** C5, as stated, fails on a record that has a song id and a source entry
    without an id: normalising it raises [KeyError] all the same. *)
Lemma sub_entry_without_id_raises_key_error :
  Raw.Song.id Examples.source_without_id = Some 1
  ∧ Song.from_data (H := exact_sum) Examples.now Examples.source_without_id
    = Raise (KeyError "id").
Proof. split; reflexivity. Qed.

(** C5 (amended).  Normalising a record without a song id raises
    [KeyError('id')], and then no song is returned.  Whenever normalising
    raises a [KeyError], the key is [id], and the record lacks the song id or
    one of its source, artist, album or character entries (or a character
    entry of one of its artists) lacks its own id. *)
Theorem missing_id_raises_key_error `{Float64} (now : Qc) (data : Raw.Song.t) :
  (Raw.Song.id data = None →
   Song.from_data now data = Raise (KeyError "id"))
  ∧ (∀ key, Song.from_data now data = Raise (KeyError key) →
       key = "id"
       ∧ (Raw.Song.id data = None ∨ entries_have_ids data = false)).
Proof.
  split.
  { unfold Song.from_data. by intros ->. }
  intros key. unfold Song.from_data, entries_have_ids.
  destruct (Raw.Song.id data) as [id|]; cbn; [|intros [= <-]; auto].
  destruct (Song.expiry now (Raw.Song.duration data)) as [time_end|e] eqn:Ex; cbn.
  2:{ intros [= ->]. by apply expiry_raises in Ex as [? _]. }
  destruct (Song._get_sources data) as [sources|e] eqn:Es; cbn.
  2:{ intros [= ->].
      apply (getter_key_error _ _ "id" _ source_entry_key_error) in Es as [-> ->].
      auto. }
  destruct (Song._get_artists data) as [artists|e] eqn:Ea; cbn.
  2:{ intros [= ->].
      apply (getter_key_error _ _ "id" _ artist_entry_key_error) in Ea as [-> ->].
      rewrite andb_false_r. auto. }
  destruct (Song._get_albums data) as [albums|e] eqn:El; cbn.
  2:{ intros [= ->].
      apply (getter_key_error _ _ "id" _ album_entry_key_error) in El as [-> ->].
      rewrite andb_false_r. auto. }
  destruct (Song._get_characters data) as [characters|e] eqn:Ec; cbn; [done|].
  intros [= ->].
  apply (getter_key_error _ _ "id" _ character_entry_key_error) in Ec as [-> ->].
  rewrite andb_false_r. auto.
Qed.

(** [{'title': 't'}] has no song id. *)
Lemma missing_id_raises_key_error_witness :
  Raw.Song.id Examples.song_without_id = None
  ∧ Song.from_data (H := exact_sum) Examples.now Examples.song_without_id
    = Raise (KeyError "id").
Proof.
  split; [reflexivity|].
  apply (missing_id_raises_key_error (H := exact_sum)). reflexivity.
Defined.

(** ** The expiry timestamp *)

Ltac qc_to_q :=
  unfold Qcabs, Qcle, Qclt, Qcminus, Qcplus, Qcopp, Qc_of_Z, Q2Qc in *;
  cbn [this] in *; rewrite ?Qred_correct in *.

(** [round] is within half a unit of its argument. *)
Lemma round_near (x : Qc) :
  (Qcabs (Qc_of_Z (round x) - x) ≤ Q2Qc (1 # 2))%Qc.
Proof.
  unfold round.
  pose proof (Qfloor_le x) as Hlo. pose proof (Qlt_floor x) as Hhi.
  rewrite inject_Z_plus in Hhi. change (inject_Z 1) with 1%Q in Hhi.
  set (f := Qfloor x) in *. clearbody f.
  destruct (x - Qc_of_Z f ?= Q2Qc (1 # 2))%Qc eqn:E; unfold Qccompare in E.
  - apply Qeq_alt in E.
    destruct (Z.even f); qc_to_q; apply Qabs_Qle_condition;
      rewrite ?inject_Z_plus; change (inject_Z 1) with 1%Q; split; lra.
  - apply Qlt_alt in E. qc_to_q. apply Qabs_Qle_condition. split; lra.
  - apply Qgt_alt in E. qc_to_q. apply Qabs_Qle_condition.
    rewrite ?inject_Z_plus. change (inject_Z 1) with 1%Q. split; lra.
Qed.

Lemma pow2_nonneg_eq (k : Z) : 0 ≤ k → pow2 k = Qc_of_Z (2 ^ k).
Proof. intros Hk. unfold pow2. destruct (Z.leb_spec 0 k); [done | exfalso; lia]. Qed.

Lemma pow2_neg_eq (k : Z) : k < 0 → pow2 k = (/ Qc_of_Z (2 ^ (- k)))%Qc.
Proof. intros Hk. unfold pow2. destruct (Z.leb_spec 0 k); [exfalso; lia | done]. Qed.

Lemma int_pow2_pos (k : Z) : 0 ≤ k → (0 < Qc_of_Z (2 ^ k))%Qc.
Proof.
  intros Hk. rewrite <- Z2Qc_inj_0. apply (proj1 (Z2Qc_inj_lt _ _)).
  by apply Z.pow_pos_nonneg.
Qed.

Lemma pow2_pos (k : Z) : (0 < pow2 k)%Qc.
Proof.
  destruct (Z.le_gt_cases 0 k).
  - rewrite pow2_nonneg_eq by done. by apply int_pow2_pos.
  - rewrite pow2_neg_eq by lia. apply Qcinv_pos. apply int_pow2_pos. lia.
Qed.

Lemma pow2_inv (k : Z) : (pow2 (- k) * pow2 k = 1)%Qc.
Proof.
  assert (Hpos : ∀ j, 0 ≤ j → (/ Qc_of_Z (2 ^ j) * Qc_of_Z (2 ^ j) = 1)%Qc).
  { intros j Hj. rewrite Qcmult_comm. apply Qcmult_inv_r.
    pose proof (int_pow2_pos j Hj) as Hp. intros E. rewrite E in Hp.
    by apply Qclt_not_eq in Hp. }
  destruct (Z.lt_trichotomy k 0) as [Hk | [-> | Hk]].
  - rewrite (pow2_nonneg_eq (- k)), (pow2_neg_eq k) by lia.
    rewrite Qcmult_comm. apply Hpos. lia.
  - reflexivity.
  - rewrite (pow2_neg_eq (- k)), (pow2_nonneg_eq k) by lia.
    rewrite Z.opp_involutive. apply Hpos. lia.
Qed.

(** Rounding to a multiple of [2 ^ k] moves a number by half of [2 ^ k] at
    most. *)
Lemma scaled_round_near (x : Qc) (k : Z) :
  (Qcabs (Qc_of_Z (round (x * pow2 (- k))) * pow2 k - x) ≤ pow2 k * Q2Qc (1 # 2))%Qc.
Proof.
  pose proof (round_near (x * pow2 (- k))) as Hr.
  pose proof (pow2_pos k) as Hp. pose proof (pow2_inv k) as Hi.
  set (r := Qc_of_Z (round (x * pow2 (- k)))) in *. clearbody r.
  set (p := pow2 k) in *. set (q := pow2 (- k)) in *. clearbody p q.
  replace (r * p - x)%Qc with ((r - x * q) * p)%Qc
    by (rewrite <- (Qcmult_1_r x) at 2; rewrite <- Hi; ring).
  rewrite Qcabs_Qcmult. rewrite (Qcabs_pos p) by by apply Qclt_le_weak.
  rewrite (Qcmult_comm p).
  apply Qcmult_le_compat_r; [done | by apply Qclt_le_weak].
Qed.

Lemma round_int (z : Z) : round (Qc_of_Z z) = z.
Proof.
  unfold round.
  assert (Hf : Qfloor (Qc_of_Z z) = z).
  { unfold Qc_of_Z, Q2Qc. cbn [this]. apply Qfloor_Z. }
  rewrite Hf. replace (Qc_of_Z z - Qc_of_Z z)%Qc with 0%Qc by ring.
  reflexivity.
Qed.

Lemma pow2_mono_nonneg (j k : Z) : 0 ≤ j → j ≤ k → (pow2 j ≤ pow2 k)%Qc.
Proof.
  intros Hj Hjk. rewrite !pow2_nonneg_eq by lia.
  apply (proj1 (Z2Qc_inj_le _ _)). apply Z.pow_le_mono_r; lia.
Qed.

Lemma pow2_le_half (k : Z) : k ≤ -1 → (pow2 k ≤ Q2Qc (1 # 2))%Qc.
Proof.
  intros Hk. rewrite pow2_neg_eq by lia.
  assert (H2 : (Qc_of_Z 2 ≤ Qc_of_Z (2 ^ (- k)))%Qc).
  { apply (proj1 (Z2Qc_inj_le _ _)).
    change 2 with (2 ^ 1) at 1. apply Z.pow_le_mono_r; lia. }
  pose proof (int_pow2_pos (- k) ltac:(lia)) as Hp.
  set (a := Qc_of_Z (2 ^ (- k))) in *. clearbody a.
  unfold Qcle, Qclt, Qcinv, Qc_of_Z, Q2Qc in *. cbn [this] in *.
  rewrite ?Qred_correct in *.
  apply Qle_shift_inv_r; [done |].
  change (inject_Z 2) with 2%Q in H2. lra.
Qed.

(** [binade x] is below every power of two that exceeds [x]. *)
Lemma binade_lt (x : Qc) (m : Z) :
  0 ≤ m → (Qcabs x < pow2 m)%Qc → binade x < m.
Proof.
  intros Hm Hx. unfold binade.
  set (n := Z.abs (Qnum x)). set (d := Z.pos (Qden x)).
  set (c := Z.log2 n - Z.log2 d).
  assert (Hle : (pow2 c ≤ Qcabs x)%Qc → c < m).
  { intros Hc. destruct (Z.lt_ge_cases c m) as [|Hmc]; [done |].
    exfalso. apply (Qclt_not_le _ _ Hx).
    etrans; [by apply pow2_mono_nonneg | done]. }
  destruct (pow2 c ?= Qcabs x)%Qc eqn:E; unfold Qccompare in E.
  - apply Hle. apply Qeq_alt in E. apply Qc_is_canon in E. rewrite E.
    apply Qcle_refl.
  - apply Hle. apply Qlt_alt in E. by apply Qclt_le_weak.
  - assert (c ≤ m); [| lia].
    assert (Hn : n < 2 ^ m * d).
    { rewrite pow2_nonneg_eq in Hx by done.
      unfold Qclt, Qcabs, Qc_of_Z, Q2Qc in Hx. cbn [this] in Hx.
      rewrite ?Qred_correct in Hx. destruct x as [[xn xd] Hcanon].
      unfold Qlt in Hx. cbn in Hx. subst n d. cbn. lia. }
    assert (0 ≤ n) by (subst n; lia).
    assert (0 < d) by (subst d; lia).
    pose proof (Z.log2_nonneg n). pose proof (Z.log2_nonneg d).
    destruct (decide (n = 0)) as [Hz | Hz].
    { subst c. rewrite Hz. change (Z.log2 0) with 0. lia. }
    pose proof (Z.log2_spec n ltac:(lia)) as [Hlo _].
    pose proof (Z.log2_spec d ltac:(lia)) as [_ Hhi].
    assert (Hpow : 2 ^ Z.log2 n < 2 ^ (m + Z.succ (Z.log2 d))).
    { rewrite Z.pow_add_r by lia.
      apply Z.le_lt_trans with n; [done |].
      apply Z.lt_le_trans with (2 ^ m * d); [done |].
      apply Z.mul_le_mono_nonneg_l; [apply Z.pow_nonneg; lia | lia]. }
    apply Z.pow_lt_mono_r_iff in Hpow; lia.
Qed.

(** An integer of at most 53 bits is a double as it stands. *)
Lemma to_double_int (d : Z) :
  Z.abs d < 2 ^ 53 → to_double (Qc_of_Z d) = Qc_of_Z d.
Proof.
  intros Hd. unfold to_double.
  assert (Hq : quantum (Qc_of_Z d) ≤ 0).
  { unfold quantum.
    assert (binade (Qc_of_Z d) < 53); [| lia].
    apply binade_lt; [lia |].
    rewrite pow2_nonneg_eq by lia.
    replace (Qcabs (Qc_of_Z d)) with (Qc_of_Z (Z.abs d)).
    - by apply (proj1 (Z2Qc_inj_lt _ _)).
    - apply Qc_is_canon. unfold Qcabs, Qc_of_Z, Q2Qc. cbn [this].
      rewrite ?Qred_correct. reflexivity. }
  destruct (Qc_of_Z d ?= 0)%Qc; [done | |].
  all: set (k := quantum (Qc_of_Z d)) in *; clearbody k.
  all: rewrite (pow2_nonneg_eq (- k)) by lia.
  all: rewrite <- Z2Qc_inj_mul, round_int, Z2Qc_inj_mul.
  all: rewrite <- (pow2_nonneg_eq (- k)) by lia.
  all: rewrite <- Qcmult_assoc, pow2_inv; apply Qcmult_1_r.
Qed.

(** Below [2 ^ 52] a double is within a quarter of the number it rounds. *)
Lemma to_double_near (x : Qc) :
  (Qcabs x < pow2 52)%Qc → (Qcabs (to_double x - x) ≤ Q2Qc (1 # 4))%Qc.
Proof.
  intros Hx. unfold to_double.
  assert (Hz : (Qcabs (x - x) ≤ Q2Qc (1 # 4))%Qc).
  { replace (x - x)%Qc with 0%Qc by ring. done. }
  destruct (x ?= 0)%Qc; [done | |].
  all: etrans; [apply scaled_round_near |].
  all: assert (Hk : quantum x ≤ -1)
    by (unfold quantum; pose proof (binade_lt x 52 ltac:(lia) Hx); lia).
  all: pose proof (pow2_le_half _ Hk) as Hp; pose proof (pow2_pos (quantum x)) as H0.
  all: set (p := pow2 (quantum x)) in *; clearbody p.
  all: unfold Qcle, Qclt, Qcmult, Q2Qc in *; cbn [this] in *.
  all: rewrite ?Qred_correct in *; lra.
Qed.

(** The double sum of a clock reading and a duration of at most 53 bits, in
    whole seconds, is within a second of the exact sum when that is below
    [2 ^ 52]. *)
Lemma double_sum_near (now : Qc) (duration : Z) :
  Z.abs duration < 2 ^ 53 →
  (Qcabs (now + Qc_of_Z duration) < pow2 52)%Qc →
  (Qcabs (Qc_of_Z (round (float_add (Float64 := double_sum) now duration))
          - (now + Qc_of_Z duration)) < 1)%Qc.
Proof.
  intros Hd Hsum. unfold float_add, double_sum.
  rewrite to_double_int by done.
  pose proof (to_double_near _ Hsum) as Hnear.
  pose proof (round_near (to_double (now + Qc_of_Z duration))) as Hround.
  set (x := (now + Qc_of_Z duration)%Qc) in *. clearbody x.
  set (y := to_double x) in *. clearbody y.
  set (r := Qc_of_Z (round y)) in *. clearbody r.
  unfold Qcabs, Qcle, Qclt, Qcminus, Qcplus, Qcopp, Q2Qc in *.
  cbn [this] in *. rewrite ?Qred_correct in *.
  apply Qabs_Qle_condition in Hnear, Hround.
  apply Qabs_Qlt_condition. split; lra.
Qed.

(** The ints that convert end where rounding reaches [2 ^ 1024]: the last
    one rounds to the largest double. *)
Lemma fits_double_limit :
  fits_double (2 ^ 1024 - 2 ^ 970 - 1) = true
  ∧ to_double (Qc_of_Z (2 ^ 1024 - 2 ^ 970 - 1)) = Qc_of_Z (2 ^ 1024 - 2 ^ 971)
  ∧ fits_double (2 ^ 1024 - 2 ^ 970) = false
  ∧ to_double (Qc_of_Z (2 ^ 1024 - 2 ^ 970)) = Qc_of_Z (2 ^ 1024).
Proof.
  split; [by vm_compute|]. split; [apply Qc_is_canon; by vm_compute|].
  split; [by vm_compute|]. apply Qc_is_canon. by vm_compute.
Qed.

(** Where the exact sum of a clock reading and a duration of at most 53 bits
    is a double, it is the double sum; so on the example records. *)
Lemma exact_sum_is_double_sum (now : Qc) (duration : Z) :
  Z.abs duration < 2 ^ 53 →
  to_double (now + Qc_of_Z duration) = (now + Qc_of_Z duration)%Qc →
  float_add (Float64 := double_sum) now duration
  = float_add (Float64 := exact_sum) now duration.
Proof.
  intros Hd Hsum. unfold float_add, double_sum, exact_sum.
  by rewrite to_double_int.
Qed.

Lemma exact_sum_on_examples :
  float_add (Float64 := double_sum) Examples.now 120
  = float_add (Float64 := exact_sum) Examples.now 120
  ∧ Forall (λ k, float_add (Float64 := double_sum) (Frames.ticking k) 60
                 = float_add (Float64 := exact_sum) (Frames.ticking k) 60)
      [0; 1; 2; 3]%nat.
Proof.
  split; [apply Qc_is_canon; by vm_compute|].
  repeat constructor; apply Qc_is_canon; by vm_compute.
Qed.

(** With a duration of [10 ** 18 + 63] the double sum is 63 seconds short of
    the exact one, and with a duration of [10 ** 400] there is no sum. *)
Lemma huge_duration_misses_exact_expiry :
  (∃ s, Song.from_data (H := double_sum) Examples.now Examples.aeon = Ok s
        ∧ Song.time_end s = 1000000001700000000
        ∧ round (Examples.now + Qc_of_Z (10 ^ 18 + 63)) = 1000000001700000063)
  ∧ Song.from_data (H := double_sum) Examples.now Examples.beyond_doubles
    = Raise (OverflowError "int too large to convert to float").
Proof.
  split; [| by vm_compute].
  eexists. split; [by vm_compute |]. split; by vm_compute.
Qed.

(** C7 (amended).  The expiry timestamp of a normalised song is the clock
    reading in whole seconds when the record has no duration, or a duration
    of zero, and otherwise the double-precision sum of the clock reading and
    the duration, in whole seconds.  For a duration of at most 53 bits and a
    sum below [2 ^ 52] the expiry is within one second of the clock reading
    plus the duration; so for a duration of 120 at any clock reading of this
    era.  A record with a song id and a duration that does not convert to a
    double does not normalise: [OverflowError] is raised. *)
Theorem expiry_is_double_sum_rounded (now : Qc) (data : Raw.Song.t) :
  (∀ s, Song.from_data (H := double_sum) now data = Ok s →
     Song.time_end s =
       match Raw.Song.duration data with
       | None | Some 0 => round now
       | Some duration => round (to_double (now + to_double (Qc_of_Z duration)))
       end
     ∧ ∀ duration,
         Raw.Song.duration data = Some duration →
         Z.abs duration < 2 ^ 53 →
         (Qcabs (now + Qc_of_Z duration) < pow2 52)%Qc →
         (Qcabs (Qc_of_Z (Song.time_end s) - (now + Qc_of_Z duration)) < 1)%Qc)
  ∧ ∀ id duration,
      Raw.Song.id data = Some id →
      Raw.Song.duration data = Some duration →
      fits_double duration = false →
      Song.from_data (H := double_sum) now data
      = Raise (OverflowError "int too large to convert to float").
Proof.
  split.
  - intros s Hok.
    apply from_data_ok_inv in Hok
      as (? & time_end & ? & ? & ? & ? & _ & Hend & _ & _ & _ & _ & ->).
    cbn [Song.time_end]. unfold Song.expiry in Hend. split.
    + destruct (Raw.Song.duration data) as [[|d|d]|]; [congruence | | | congruence].
      all: destruct (fits_double _); [|done].
      all: by injection Hend as <-.
    + intros duration Hd Hsmall Hsum. rewrite Hd in Hend.
      destruct duration as [|d|d].
      * injection Hend as <-. pose proof (round_near now) as Hround.
        replace (now + Qc_of_Z 0)%Qc with now by (rewrite Z2Qc_inj_0; ring).
        set (r := Qc_of_Z (round now)) in *. clearbody r.
        qc_to_q. apply Qabs_Qle_condition in Hround.
        apply Qabs_Qlt_condition. split; lra.
      * destruct (fits_double _); [|done]. injection Hend as <-.
        by apply double_sum_near.
      * destruct (fits_double _); [|done]. injection Hend as <-.
        by apply double_sum_near.
  - intros id duration Hid Hd Hfit. unfold Song.from_data, Song.expiry.
    rewrite Hid, Hd. cbn [subscript bind].
    destruct duration as [|d|d]; [done | |]; by rewrite Hfit.
Qed.

(** Two minutes from 1 700 000 000.25 s. *)
Lemma expiry_is_double_sum_rounded_witness :
  ∃ s, Song.from_data (H := double_sum) Examples.now Examples.two_minutes = Ok s
       ∧ Song.time_end s = 1700000120
       ∧ (Qcabs (Qc_of_Z (Song.time_end s) - (Examples.now + Qc_of_Z 120)) < 1)%Qc.
Proof.
  eexists. split; [by vm_compute |].
  destruct (expiry_is_double_sum_rounded Examples.now Examples.two_minutes)
    as [Hsong _].
  destruct (Hsong _ ltac:(by vm_compute)) as [Hend Hnear].
  split; [by vm_compute |].
  apply Hnear; [reflexivity | by vm_compute | by vm_compute].
Defined.

(** * Further properties *)

(** ** [Song._sanitise], continued *)

Lemma not_mark (c : cp) : c ∉ marks ↔ c ≠ U3099 ∧ c ≠ U309A ∧ c ≠ U200B.
Proof.
  unfold marks. rewrite !not_elem_of_cons. split.
  - by intros (? & ? & ? & _).
  - intros (? & ? & ?). repeat split; [done..|]. apply not_elem_of_nil.
Qed.

Lemma sanitise_char_clean (c : cp) : clean (sanitise_char c).
Proof.
  unfold sanitise_char, clean.
  destruct (N.eqb_spec c U3099) as [->|?];
    [by repeat constructor; apply not_mark|].
  destruct (N.eqb_spec c U309A) as [->|?];
    [by repeat constructor; apply not_mark|].
  destruct (N.eqb_spec c U200B) as [->|?]; [constructor|].
  repeat constructor. by apply not_mark.
Qed.

Lemma sanitise_char_kept (c : cp) : c ∉ marks → sanitise_char c = [c].
Proof.
  rewrite not_mark. unfold sanitise_char. intros (? & ? & ?).
  destruct (N.eqb_spec c U3099) as [->|_]; [done|].
  destruct (N.eqb_spec c U309A) as [->|_]; [done|].
  by destruct (N.eqb_spec c U200B) as [->|_].
Qed.

Lemma sanitise_pass_clean (w : pystr) : clean (w ≫= sanitise_char).
Proof.
  unfold clean. induction w as [|c w IH]; [constructor|].
  cbn [mbind list_bind]. apply Forall_app. split; [apply sanitise_char_clean|done].
Qed.

Lemma sanitise_pass_of_clean (w : pystr) : clean w → w ≫= sanitise_char = w.
Proof.
  unfold clean. induction 1 as [|c w Hc _ IH]; [done|].
  cbn [mbind list_bind]. by rewrite sanitise_char_kept, IH.
Qed.

Lemma sanitise_some_inv (word : option pystr) (r : pystr) :
  Song._sanitise word = Some r →
  ∃ c w, word = Some (c :: w) ∧ r = (c :: w) ≫= sanitise_char.
Proof.
  destruct word as [[|c w]|]; [done| |done].
  rewrite sanitise_present. intros [= <-]. eauto.
Qed.

Lemma sanitise_clean (word : option pystr) : clean_opt (Song._sanitise word).
Proof.
  destruct (Song._sanitise word) as [r|] eqn:E; [|done].
  apply sanitise_some_inv in E as (c & w & _ & ->). apply sanitise_pass_clean.
Qed.

(** X1.  Whatever [_sanitise] returns holds no U+3099, no U+309A and no
    U+200B. *)
Theorem sanitise_result_clean (word : option pystr) (r : pystr) :
  Song._sanitise word = Some r → (U3099 ∉ r) ∧ (U309A ∉ r) ∧ (U200B ∉ r).
Proof.
  intros E. pose proof (sanitise_clean word) as Hclean. rewrite E in Hclean.
  cbn in Hclean. unfold clean in Hclean. rewrite Forall_forall in Hclean.
  repeat split; intros Hin; apply Hclean in Hin; apply not_mark in Hin;
    by destruct Hin as (? & ? & ?).
Qed.

(** A title with a zero width space and a combining mark. *)
Lemma sanitise_result_clean_witness :
  let r := lit "ka" ++ [U309B] in
  Song._sanitise (Some (lit "k" ++ [U200B] ++ lit "a" ++ [U3099])) = Some r
  ∧ (U3099 ∉ r) ∧ (U309A ∉ r) ∧ (U200B ∉ r).
Proof.
  split; [reflexivity|].
  apply (sanitise_result_clean (Some (lit "k" ++ [U200B] ++ lit "a" ++ [U3099]))).
  reflexivity.
Defined.

(** X2.  Sanitising changes the length of a string by the number of zero
    width spaces it holds, and by nothing else. *)
Theorem sanitise_length (word : option pystr) (w r : pystr) :
  word = Some w →
  Song._sanitise word = Some r →
  (length r + length (filter (λ c, c = U200B) w) = length w)%nat.
Proof.
  intros -> E. apply sanitise_some_inv in E as (c & w' & [= ->] & ->).
  unfold pystr in *. generalize (c :: w'). clear. intros w.
  induction w as [|c w IH]; [done|].
  cbn [mbind list_bind]. rewrite length_app, filter_cons. cbn [length].
  unfold sanitise_char at 1.
  destruct (N.eqb_spec c U3099) as [->|?];
    [rewrite decide_False by done; cbn; lia|].
  destruct (N.eqb_spec c U309A) as [->|?];
    [rewrite decide_False by done; cbn; lia|].
  destruct (N.eqb_spec c U200B) as [->|?].
  - rewrite decide_True by done. cbn. lia.
  - rewrite decide_False by done. cbn. lia.
Qed.

(** A string of three code points, one of them a zero width space. *)
Lemma sanitise_length_witness :
  let w := [0x41%N; U200B; U3099] in
  Song._sanitise (Some w) = Some [0x41%N; U309B]
  ∧ (length [0x41%N; U309B] + length (filter (λ c, c = U200B) w) = length w)%nat.
Proof.
  split; [reflexivity|].
  apply (sanitise_length (Some [0x41%N; U200B; U3099])); reflexivity.
Defined.

(** X3.  The non-empty strings [_sanitise] returns unchanged are exactly
    those that hold none of the three code points. *)
Theorem sanitise_unchanged_iff_clean (w : pystr) :
  w ≠ [] → (Song._sanitise (Some w) = Some w ↔ clean w).
Proof.
  intros Hne. destruct w as [|c w]; [done|]. rewrite sanitise_present. split.
  - intros E. apply (inj Some) in E. rewrite <- E. apply sanitise_pass_clean.
  - intros Hclean. by rewrite sanitise_pass_of_clean.
Qed.

(** The title [kanji] has none of the three code points. *)
Lemma sanitise_unchanged_iff_clean_witness :
  Song._sanitise (Some (lit "kanji")) = Some (lit "kanji").
Proof.
  apply sanitise_unchanged_iff_clean; [discriminate|].
  unfold clean. apply (bool_decide_unpack _). vm_compute. exact I.
Defined.

(** ** [Link.from_name] and the site links *)

(** X4.  The URL of a link built by [Link.from_name] determines the kind and
    the value it was built from. *)
Theorem link_url_determines_source (kind1 kind2 : Link.kind)
    (value1 value2 : option pystr) (link1 link2 : Link.t) :
  Link.from_name kind1 value1 = Some link1 →
  Link.from_name kind2 value2 = Some link2 →
  Link.url link1 = Link.url link2 →
  kind1 = kind2 ∧ value1 = value2 ∧ link1 = link2.
Proof.
  unfold Link.from_name.
  destruct value1 as [[|c1 v1]|]; [done| |done].
  destruct value2 as [[|c2 v2]|]; [done| |done].
  intros [= <-] [= <-]. cbn [Link.url].
  destruct kind1, kind2; vm_compute; intros [=]; by subst.
Qed.

(** Two covers of the same name. *)
Lemma link_url_determines_source_witness :
  let cover := Link.mk (lit "c.jpg") (lit "https://cdn.listen.moe/covers/c.jpg") in
  Link.from_name Link.albums (Some (lit "c.jpg")) = Some cover
  ∧ Link.albums = Link.albums.
Proof.
  split; [reflexivity|].
  eapply (link_url_determines_source Link.albums Link.albums
            (Some (lit "c.jpg")) (Some (lit "c.jpg"))); reflexivity.
Defined.

Lemma lit_inj (s1 s2 : string) : lit s1 = lit s2 → s1 = s2.
Proof.
  unfold lit. intros E.
  assert (Hinj : Inj (=) (=) Ascii.N_of_ascii).
  { intros a b Hab. by rewrite <- (Ascii.ascii_N_embedding a),
      <- (Ascii.ascii_N_embedding b), Hab. }
  apply (inj (fmap Ascii.N_of_ascii)) in E.
  by rewrite <- (String.string_of_list_ascii_of_string s1),
    <- (String.string_of_list_ascii_of_string s2), E.
Qed.

Lemma str_int_inj (i j : Z) : str_int i = str_int j → i = j.
Proof. unfold str_int. intros E. by apply (inj pretty), lit_inj. Qed.

(** X5.  The site link an entity derives at construction identifies it
    within its class: albums, artists, characters and sources of different
    ids have different links. *)
Theorem site_link_identifies_entity :
  (∀ i j n r im n' r' im',
     Album.link (Album.init i n r im) = Album.link (Album.init j n' r' im') → i = j)
  ∧ (∀ i j n r im ch n' r' im' ch',
       Artist.link (Artist.init i n r im ch)
       = Artist.link (Artist.init j n' r' im' ch') → i = j)
  ∧ (∀ i j n r n' r',
       Character.link (Character.init i n r)
       = Character.link (Character.init j n' r') → i = j)
  ∧ (∀ i j n r im n' r' im',
       Source.link (Source.init i n r im)
       = Source.link (Source.init j n' r' im') → i = j).
Proof.
  repeat split; intros * E; apply str_int_inj; exact (app_inv_head _ _ _ E).
Qed.

(** Two albums built with the id 3. *)
Lemma site_link_identifies_entity_witness :
  Album.link (Album.init 3 None None None)
  = Album.link (Album.init 3 (Some (lit "L")) None None)
  ∧ (3 = 3)%Z.
Proof.
  split; [reflexivity|].
  apply (proj1 site_link_identifies_entity 3 3
           None None None (Some (lit "L")) None None).
  reflexivity.
Defined.

(** ** What [Song.from_data] returns *)

Lemma comprehension_ok_inv {A B} (f : A → result B) (l : list A) (bs : list B) :
  comprehension f l = Ok bs → Forall2 (λ a b, f a = Ok b) l bs.
Proof.
  revert bs. induction l as [|a l IH]; intros bs; cbn [comprehension].
  - intros [= <-]. constructor.
  - destruct (f a) as [b|] eqn:Ea; cbn; [|done].
    destruct (comprehension f l) as [bs'|]; cbn; [|done].
    intros [= <-]. constructor; [done|]. by apply IH.
Qed.

Lemma comprehension_raise_inv {A B} (f : A → result B) (l : list A) (e : exn) :
  comprehension f l = Raise e → Exists (λ a, f a = Raise e) l.
Proof.
  induction l as [|a l IH]; cbn [comprehension]; [done|].
  destruct (f a) as [b|e'] eqn:Ea; cbn.
  - destruct (comprehension f l) as [bs'|e']; cbn; [done|].
    intros [= ->]. right. by apply IH.
  - intros [= ->]. by left.
Qed.

(** What a [_get_*] helper returns: [None] for a falsy field, and otherwise
    a list with one built entry for every raw entry, in the same order. *)
Lemma getter_ok_inv {A B} (entry : A → result B) (field : option (list A))
    (r : option (list B)) :
  getter entry field = Ok r →
  Forall2 (λ a b, entry a = Ok b) (default [] field) (default [] r)
  ∧ r ≠ Some []
  ∧ (r = None ↔ truthy_list field = false).
Proof.
  destruct field as [[|a l]|]; cbn -[comprehension].
  - intros [= <-]. by repeat split; try constructor.
  - destruct (comprehension entry (a :: l)) as [bs|] eqn:E; cbn -[comprehension]; [|done].
    intros [= <-]. apply comprehension_ok_inv in E.
    repeat split; [done| |done..].
    intros [= ->]. inversion E.
  - intros [= <-]. by repeat split; try constructor.
Qed.

Lemma getter_raise_inv {A B} (entry : A → result B) (field : option (list A))
    (e : exn) :
  getter entry field = Raise e →
  Exists (λ a, entry a = Raise e) (default [] field).
Proof.
  destruct field as [[|a l]|]; cbn -[comprehension]; try done.
  destruct (comprehension entry (a :: l)) as [bs|e'] eqn:E; cbn; [done|].
  intros [= ->]. by apply comprehension_raise_inv.
Qed.

Lemma source_entry_inv (a : Raw.Source.t) (b : Source.t) :
  Song.source_entry a = Ok b →
  ∃ id, Raw.Source.id a = Some id
        ∧ b = Source.init id (Song._sanitise (Raw.Source.name a))
                (Raw.Source.nameRomaji a)
                (Link.from_name Link.sources (Raw.Source.image a)).
Proof.
  unfold Song.source_entry. destruct (Raw.Source.id a); cbn; [|done].
  intros [= <-]. eauto.
Qed.

Lemma album_entry_inv (a : Raw.Album.t) (b : Album.t) :
  Song.album_entry a = Ok b →
  ∃ id, Raw.Album.id a = Some id
        ∧ b = Album.init id (Song._sanitise (Raw.Album.name a))
                (Song._sanitise (Raw.Album.nameRomaji a))
                (Link.from_name Link.albums (Raw.Album.image a)).
Proof.
  unfold Song.album_entry. destruct (Raw.Album.id a); cbn; [|done].
  intros [= <-]. eauto.
Qed.

Lemma character_entry_inv (a : Raw.Character.t) (b : Character.t) :
  Song.character_entry a = Ok b →
  ∃ id, Raw.Character.id a = Some id
        ∧ b = Character.init id (Song._sanitise (Raw.Character.name a))
                (Song._sanitise (Raw.Character.nameRomaji a)).
Proof.
  unfold Song.character_entry. destruct (Raw.Character.id a); cbn; [|done].
  intros [= <-]. eauto.
Qed.

Lemma placeholder_entry_inv (a : Raw.Character.t) (b : Character.t) :
  Song.placeholder_entry a = Ok b →
  ∃ id, Raw.Character.id a = Some id ∧ b = Character.init id None None.
Proof.
  unfold Song.placeholder_entry. destruct (Raw.Character.id a); cbn; [|done].
  intros [= <-]. eauto.
Qed.

Lemma artist_entry_inv (a : Raw.Artist.t) (b : Artist.t) :
  Song.artist_entry a = Ok b →
  ∃ id raw_characters placeholders,
    Raw.Artist.id a = Some id
    ∧ Raw.Artist.characters a = Some raw_characters
    ∧ b = Artist.init id (Song._sanitise (Raw.Artist.name a))
            (Song._sanitise (Raw.Artist.nameRomaji a))
            (Link.from_name Link.artists (Raw.Artist.image a)) placeholders
    ∧ Forall2 (λ c p, Song.placeholder_entry c = Ok p)
        raw_characters (default [] placeholders)
    ∧ placeholders ≠ Some [].
Proof.
  unfold Song.artist_entry.
  destruct (Raw.Artist.id a) as [id|]; cbn -[comprehension]; [|done].
  destruct (Raw.Artist.characters a) as [[|c l]|]; cbn -[comprehension]; [| |done].
  - intros [= <-]. exists id, [], None. by repeat split; try constructor.
  - destruct (comprehension Song.placeholder_entry (c :: l)) as [ps|] eqn:E;
      cbn -[comprehension]; [|done].
    intros [= <-]. apply comprehension_ok_inv in E.
    exists id, (c :: l), (Some ps). repeat split; [done|].
    intros [= ->]. inversion E.
Qed.

(** The four lists of a normalised song, entry by entry. *)
Lemma from_data_lists `{Float64} (now : Qc) (data : Raw.Song.t) (s : Song.t) :
  Song.from_data now data = Ok s →
  getter Song.source_entry (Raw.Song.sources data) = Ok (Song.sources s)
  ∧ getter Song.artist_entry (Raw.Song.artists data) = Ok (Song.artists s)
  ∧ getter Song.album_entry (Raw.Song.albums data) = Ok (Song.albums s)
  ∧ getter Song.character_entry (Raw.Song.characters data) = Ok (Song.characters s).
Proof.
  intros Hok.
  by apply from_data_ok_inv in Hok
    as (? & ? & ? & ? & ? & ? & _ & _ & ? & ? & ? & ? & ->).
Qed.

(** X6.  A list field of a normalised song is never the empty list: the
    sources, artists, albums and characters of the song, and the characters
    of each of its artists, are absent or non-empty. *)
Theorem normalised_lists_never_empty `{Float64} (now : Qc) (data : Raw.Song.t)
    (s : Song.t) :
  Song.from_data now data = Ok s →
  Song.sources s ≠ Some []
  ∧ Song.artists s ≠ Some []
  ∧ Song.albums s ≠ Some []
  ∧ Song.characters s ≠ Some []
  ∧ Forall (λ artist, Artist.character artist ≠ Some [])
      (default [] (Song.artists s)).
Proof.
  intros Hok. apply from_data_lists in Hok as (Hs & Ha & Hl & Hc).
  apply getter_ok_inv in Hs as (_ & Hs & _), Ha as (Ha & Ha' & _),
    Hl as (_ & Hl & _), Hc as (_ & Hc & _).
  repeat split; try done.
  induction Ha as [|a b ? ? Hab _ IH]; constructor; [|done].
  by apply artist_entry_inv in Hab as (? & ? & ? & _ & _ & -> & _ & ?).
Qed.

(** [Records.full] normalises, and none of its lists comes out empty. *)
Lemma normalised_lists_never_empty_witness :
  ∃ s, Song.from_data (H := exact_sum) Examples.now Records.full = Ok s
       ∧ Song.sources s ≠ Some []
       ∧ Forall (λ artist, Artist.character artist ≠ Some [])
           (default [] (Song.artists s)).
Proof.
  eexists. split; [reflexivity|].
  destruct (normalised_lists_never_empty (H := exact_sum)
              Examples.now Records.full _ eq_refl) as (Hs & _ & _ & _ & Hc).
  split; [exact Hs|exact Hc].
Defined.

Lemma Forall2_fmap_eq {A B C} (R : A → B → Prop) (g : A → C) (h : B → C)
    (l : list A) (bs : list B) :
  Forall2 R l bs → (∀ a b, R a b → h b = g a) → h <$> bs = g <$> l.
Proof.
  intros HR Hgh. induction HR as [|a b l bs Hab _ IH]; [done|].
  cbn. by rewrite (Hgh a b Hab), IH.
Qed.

(** X7.  The entries of a normalised song are those of the record, one for
    one and in the same order: the ids of its sources, artists, albums and
    characters are the ids of the raw entries, in the order of the record. *)
Theorem normalised_entries_in_order `{Float64} (now : Qc) (data : Raw.Song.t)
    (s : Song.t) :
  Song.from_data now data = Ok s →
  (λ x, Some (Source.id x)) <$> default [] (Song.sources s)
    = Raw.Source.id <$> default [] (Raw.Song.sources data)
  ∧ (λ x, Some (Artist.id x)) <$> default [] (Song.artists s)
    = Raw.Artist.id <$> default [] (Raw.Song.artists data)
  ∧ (λ x, Some (Album.id x)) <$> default [] (Song.albums s)
    = Raw.Album.id <$> default [] (Raw.Song.albums data)
  ∧ (λ x, Some (Character.id x)) <$> default [] (Song.characters s)
    = Raw.Character.id <$> default [] (Raw.Song.characters data).
Proof.
  intros Hok. apply from_data_lists in Hok as (Hs & Ha & Hl & Hc).
  apply getter_ok_inv in Hs as (Hs & _), Ha as (Ha & _),
    Hl as (Hl & _), Hc as (Hc & _).
  repeat split.
  - apply (Forall2_fmap_eq _ _ _ _ _ Hs). intros a b Hab.
    by apply source_entry_inv in Hab as (? & -> & ->).
  - apply (Forall2_fmap_eq _ _ _ _ _ Ha). intros a b Hab.
    by apply artist_entry_inv in Hab as (? & ? & ? & -> & _ & -> & _).
  - apply (Forall2_fmap_eq _ _ _ _ _ Hl). intros a b Hab.
    by apply album_entry_inv in Hab as (? & -> & ->).
  - apply (Forall2_fmap_eq _ _ _ _ _ Hc). intros a b Hab.
    by apply character_entry_inv in Hab as (? & -> & ->).
Qed.

(** The two albums of [Records.full] come out as albums 7 and 8. *)
Lemma normalised_entries_in_order_witness :
  ∃ s, Song.from_data (H := exact_sum) Examples.now Records.full = Ok s
       ∧ (λ x, Some (Album.id x)) <$> default [] (Song.albums s) = [Some 7; Some 8].
Proof.
  eexists. split; [reflexivity|].
  exact (proj1 (proj2 (proj2 (normalised_entries_in_order (H := exact_sum)
           Examples.now Records.full _ eq_refl)))).
Defined.

(** X8.  The character placeholders of a normalised artist are the
    [characters] entries of the raw artist, one for one and in order, and
    they hold an id only: neither name is taken from the raw entry. *)
Theorem placeholders_hold_ids_only `{Float64} (now : Qc) (data : Raw.Song.t)
    (s : Song.t) :
  Song.from_data now data = Ok s →
  Forall2 (λ raw artist,
      (λ p, Some (Character.id p)) <$> default [] (Artist.character artist)
        = Raw.Character.id <$> default [] (Raw.Artist.characters raw)
      ∧ Forall (λ p, Character.name p = None ∧ Character.name_romaji p = None)
          (default [] (Artist.character artist)))
    (default [] (Raw.Song.artists data)) (default [] (Song.artists s)).
Proof.
  intros Hok. apply from_data_lists in Hok as (_ & Ha & _).
  apply getter_ok_inv in Ha as (Ha & _).
  eapply Forall2_impl; [exact Ha|].
  intros a b Hab. cbn beta in Hab.
  apply artist_entry_inv in Hab as (id & l & ps & _ & -> & -> & Hps & _).
  cbn [Artist.character Artist.init default]. split.
  - apply (Forall2_fmap_eq _ _ _ _ _ Hps). intros c p Hcp.
    by apply placeholder_entry_inv in Hcp as (? & -> & ->).
  - clear -Hps. induction Hps as [|c p ? ? Hcp _ IH]; constructor; [|done].
    by apply placeholder_entry_inv in Hcp as (? & _ & ->).
Qed.

(** The artists of [Records.full]: the second one has one placeholder, with
    the id 1 and without the name of the raw entry. *)
Lemma placeholders_hold_ids_only_witness :
  ∃ s, Song.from_data (H := exact_sum) Examples.now Records.full = Ok s
       ∧ Forall2 (λ raw artist,
             (λ p, Some (Character.id p)) <$> default [] (Artist.character artist)
               = Raw.Character.id <$> default [] (Raw.Artist.characters raw)
             ∧ Forall (λ p, Character.name p = None ∧ Character.name_romaji p = None)
                 (default [] (Artist.character artist)))
           (default [] (Raw.Song.artists Records.full))
           (default [] (Song.artists s)).
Proof.
  eexists. split; [reflexivity|].
  exact (placeholders_hold_ids_only (H := exact_sum)
           Examples.now Records.full _ eq_refl).
Defined.

(** X9.  In a normalised song the title and the names of all entries are
    free of U+3099, U+309A and U+200B, with one exception the next property
    states: the romanised name of a source. *)
Theorem normalised_names_clean `{Float64} (now : Qc) (data : Raw.Song.t)
    (s : Song.t) :
  Song.from_data now data = Ok s →
  clean_opt (Song.title s)
  ∧ Forall (λ x, clean_opt (Source.name x)) (default [] (Song.sources s))
  ∧ Forall (λ x, clean_opt (Artist.name x) ∧ clean_opt (Artist.name_romaji x))
      (default [] (Song.artists s))
  ∧ Forall (λ x, clean_opt (Album.name x) ∧ clean_opt (Album.name_romaji x))
      (default [] (Song.albums s))
  ∧ Forall (λ x, clean_opt (Character.name x) ∧ clean_opt (Character.name_romaji x))
      (default [] (Song.characters s)).
Proof.
  intros Hok. pose proof (from_data_lists _ _ _ Hok) as (Hs & Ha & Hl & Hc).
  apply getter_ok_inv in Hs as (Hs & _), Ha as (Ha & _),
    Hl as (Hl & _), Hc as (Hc & _).
  repeat split.
  - apply from_data_ok_inv in Hok as (? & ? & ? & ? & ? & ? & _ & _ & _ & _ & _ & _ & ->).
    cbn [Song.title]. unfold Song._get_title.
    destruct (Raw.Song.title data) as [[|c w]|] eqn:E; cbn [truthy_str];
      [constructor| |done].
    apply sanitise_clean.
  - clear -Hs. induction Hs as [|a b ? ? Hab _ IH]; constructor; [|done].
    apply source_entry_inv in Hab as (? & _ & ->). apply sanitise_clean.
  - clear -Ha. induction Ha as [|a b ? ? Hab _ IH]; constructor; [|done].
    apply artist_entry_inv in Hab as (? & ? & ? & _ & _ & -> & _).
    split; apply sanitise_clean.
  - clear -Hl. induction Hl as [|a b ? ? Hab _ IH]; constructor; [|done].
    apply album_entry_inv in Hab as (? & _ & ->).
    split; apply sanitise_clean.
  - clear -Hc. induction Hc as [|a b ? ? Hab _ IH]; constructor; [|done].
    apply character_entry_inv in Hab as (? & _ & ->).
    split; apply sanitise_clean.
Qed.

(** The title of [Records.full] loses its zero width space and the name of
    its source its combining mark. *)
Lemma normalised_names_clean_witness :
  ∃ s, Song.from_data (H := exact_sum) Examples.now Records.full = Ok s
       ∧ clean_opt (Song.title s)
       ∧ Song.title s = Some (lit "t")
       ∧ Source.name <$> default [] (Song.sources s) = [Some (lit "ka" ++ [U309B])].
Proof.
  eexists. split; [reflexivity|].
  split; [|split; reflexivity].
  exact (proj1 (normalised_names_clean (H := exact_sum)
           Examples.now Records.full _ eq_refl)).
Defined.

(** X10.  The romanised name of a source is carried into the song as the
    record has it, marks included: of all the names it alone is not
    sanitised. *)
Theorem source_romaji_not_sanitised `{Float64} (now : Qc) (data : Raw.Song.t)
    (s : Song.t) :
  Song.from_data now data = Ok s →
  Source.name_romaji <$> default [] (Song.sources s)
  = Raw.Source.nameRomaji <$> default [] (Raw.Song.sources data).
Proof.
  intros Hok. apply from_data_lists in Hok as (Hs & _).
  apply getter_ok_inv in Hs as (Hs & _).
  apply (Forall2_fmap_eq _ _ _ _ _ Hs). intros a b Hab.
  by apply source_entry_inv in Hab as (? & _ & ->).
Qed.

(** The source of [Records.full] keeps the combining mark in its romanised
    name. *)
Lemma source_romaji_not_sanitised_witness :
  ∃ s, Song.from_data (H := exact_sum) Examples.now Records.full = Ok s
       ∧ Source.name_romaji <$> default [] (Song.sources s)
         = [Some (lit "ka" ++ [U3099])].
Proof.
  eexists. split; [reflexivity|].
  exact (source_romaji_not_sanitised (H := exact_sum)
           Examples.now Records.full _ eq_refl).
Defined.

(** Whether the sum raises is decided by the duration alone. *)
Lemma expiry_same_outcome (sum1 sum2 : Float64) (now1 now2 : Qc)
    (duration : option Z) :
  match Song.expiry (H := sum1) now1 duration,
        Song.expiry (H := sum2) now2 duration with
  | Ok _, Ok _ => True
  | Raise e1, Raise e2 => e1 = e2
  | _, _ => False
  end.
Proof.
  unfold Song.expiry. destruct duration as [[|d|d]|]; [done | | | done].
  all: by destruct (fits_double _).
Qed.

(** X11.  The clock and the floating-point sum decide the expiry timestamp
    and nothing else: two normalisations of one record, at any two readings
    and with any two sums, raise the same exception or return songs that
    differ in [time_end] at most. *)
Theorem clock_only_sets_expiry (sum1 sum2 : Float64) (now1 now2 : Qc)
    (data : Raw.Song.t) :
  match Song.from_data (H := sum1) now1 data,
        Song.from_data (H := sum2) now2 data with
  | Ok s1, Ok s2 => s2 = with_time_end s1 (Song.time_end s2)
  | Raise e1, Raise e2 => e1 = e2
  | _, _ => False
  end.
Proof.
  unfold Song.from_data.
  destruct (Raw.Song.id data); cbn; [|done].
  pose proof (expiry_same_outcome sum1 sum2 now1 now2 (Raw.Song.duration data))
    as Hsame.
  destruct (Song.expiry (H := sum1) now1 (Raw.Song.duration data)),
           (Song.expiry (H := sum2) now2 (Raw.Song.duration data));
    cbn; [|done..].
  destruct (Song._get_sources data); cbn; [|done].
  destruct (Song._get_artists data); cbn; [|done].
  destruct (Song._get_albums data); cbn; [|done].
  by destruct (Song._get_characters data).
Qed.

(** X12.  Normalisation returns a song exactly for the records that have a
    song id, a duration that converts to a double (one below
    [2 ^ 1024 - 2 ^ 970] in magnitude) if they have a duration, an id in
    every source, artist, album and character entry and in every character
    entry of an artist, and a [characters] list in every artist entry. *)
Theorem normalisation_succeeds_iff `{Float64} (now : Qc) (data : Raw.Song.t) :
  (∃ s, Song.from_data now data = Ok s)
  ↔ Raw.Song.id data ≠ None
    ∧ (∀ duration, Raw.Song.duration data = Some duration →
         Z.abs duration < 2 ^ 1024 - 2 ^ 970)
    ∧ entries_have_ids data = true
    ∧ artists_have_character_lists data = true.
Proof.
  pose proof (from_data_is_ok now data) as Hok.
  pose proof (duration_fits_spec data) as Hfits.
  destruct (Song.from_data now data) as [s|e]; cbn in Hok; symmetry in Hok.
  - apply andb_prop in Hok as [Hok ?]. apply andb_prop in Hok as [Hok ?].
    apply andb_prop in Hok as [Hid Hd].
    split; [|eauto]. intros _. repeat split; [| by apply Hfits | done..].
    by destruct (Raw.Song.id data).
  - split; [by intros [? [=]]|]. intros (Hid & Hd & Hids & Hlists).
    apply Hfits in Hd. rewrite Hd, Hids, Hlists in Hok.
    by destruct (Raw.Song.id data).
Qed.

(** [Records.full] meets the four conditions and normalises. *)
Lemma normalisation_succeeds_iff_witness :
  Raw.Song.id Records.full ≠ None
  ∧ Raw.Song.duration Records.full = Some 0
  ∧ entries_have_ids Records.full = true
  ∧ artists_have_character_lists Records.full = true
  ∧ ∃ s, Song.from_data (H := double_sum) Examples.now Records.full = Ok s.
Proof.
  split; [discriminate|]. split; [reflexivity|].
  split; [reflexivity|]. split; [reflexivity|].
  apply (normalisation_succeeds_iff (H := double_sum) Examples.now Records.full).
  split; [discriminate|]. split; [| split; reflexivity].
  intros duration [= <-]. by vm_compute.
Defined.

Lemma artist_entry_raise_inv (a : Raw.Artist.t) (e : exn) :
  Song.artist_entry a = Raise e →
  e = KeyError "id"
  ∨ (e = TypeError "object of type 'NoneType' has no len()"
     ∧ Raw.Artist.characters a = None).
Proof.
  unfold Song.artist_entry.
  destruct (Raw.Artist.id a) as [id|]; cbn -[comprehension];
    [|intros [= <-]; by left].
  destruct (Raw.Artist.characters a) as [[|c l]|]; cbn -[comprehension];
    [done| |intros [= <-]; by right].
  destruct (comprehension Song.placeholder_entry (c :: l)) as [ps|e'] eqn:E;
    cbn -[comprehension]; [done|].
  intros [= ->]. left.
  apply comprehension_raise_inv in E. apply Exists_exists in E as (x & _ & Hx).
  unfold Song.placeholder_entry in Hx.
  destruct (Raw.Character.id x); cbn in Hx; [done|]. by injection Hx as <-.
Qed.

Lemma getter_raise_key_error {A B} (entry : A → result B)
    (field : option (list A)) (e : exn) :
  (∀ a e, entry a = Raise e → e = KeyError "id") →
  getter entry field = Raise e → e = KeyError "id".
Proof.
  intros Hentry Hraise.
  apply getter_raise_inv in Hraise.
  apply Exists_exists in Hraise as (x & _ & Hx). eauto.
Qed.

(** X13.  Normalisation raises three exceptions only: [KeyError('id')];
    the [OverflowError] of the sum, only for a record whose duration does
    not convert to a double (one of [2 ^ 1024 - 2 ^ 970] or more in
    magnitude); and the [TypeError] of [len(None)], only for a record in
    which some artist entry has no [characters] list. *)
Theorem normalisation_raises `{Float64} (now : Qc) (data : Raw.Song.t) (e : exn) :
  Song.from_data now data = Raise e →
  e = KeyError "id"
  ∨ (e = OverflowError "int too large to convert to float"
     ∧ ∃ duration, Raw.Song.duration data = Some duration
                   ∧ 2 ^ 1024 - 2 ^ 970 ≤ Z.abs duration)
  ∨ (e = TypeError "object of type 'NoneType' has no len()"
     ∧ artists_have_character_lists data = false).
Proof.
  unfold Song.from_data.
  destruct (Raw.Song.id data) as [id|]; cbn; [|intros [= <-]; by left].
  destruct (Song.expiry now (Raw.Song.duration data)) as [?|e0] eqn:Ex; cbn.
  2:{ intros [= ->]. right. left.
      apply expiry_raises in Ex as (-> & d & Hd & Hfit).
      split; [done|]. exists d. split; [done|].
      by apply Z.ltb_ge in Hfit. }
  destruct (Song._get_sources data) as [?|e1] eqn:Es; cbn.
  2:{ intros [= ->]. left. revert Es. apply getter_raise_key_error.
      intros x e'. unfold Song.source_entry.
      destruct (Raw.Source.id x); cbn; [done|]. by intros [= <-]. }
  destruct (Song._get_artists data) as [?|e2] eqn:Ea; cbn.
  2:{ intros [= ->].
      apply getter_raise_inv in Ea. apply Exists_exists in Ea as (x & Hin & Hx).
      apply artist_entry_raise_inv in Hx as [->|[-> Hnone]]; [by left|do 2 right].
      split; [done|]. unfold artists_have_character_lists.
      apply not_true_iff_false. intros Hall.
      rewrite forallb_forall in Hall.
      apply list_elem_of_In, Hall in Hin. by rewrite Hnone in Hin. }
  destruct (Song._get_albums data) as [?|e3] eqn:El; cbn.
  2:{ intros [= ->]. left. revert El. apply getter_raise_key_error.
      intros x e'. unfold Song.album_entry.
      destruct (Raw.Album.id x); cbn; [done|]. by intros [= <-]. }
  destruct (Song._get_characters data) as [?|e4] eqn:Ec; cbn; [done|].
  intros [= ->]. left. revert Ec. apply getter_raise_key_error.
  intros x e'. unfold Song.character_entry.
  destruct (Raw.Character.id x); cbn; [done|]. by intros [= <-].
Qed.

(** The record with a duration of [10 ** 400] raises the [OverflowError]. *)
Lemma normalisation_raises_witness :
  Song.from_data (H := double_sum) Examples.now Examples.beyond_doubles
    = Raise (OverflowError "int too large to convert to float")
  ∧ (OverflowError "int too large to convert to float" = KeyError "id"
     ∨ (OverflowError "int too large to convert to float"
          = OverflowError "int too large to convert to float"
        ∧ ∃ duration, Raw.Song.duration Examples.beyond_doubles = Some duration
                      ∧ 2 ^ 1024 - 2 ^ 970 ≤ Z.abs duration)
     ∨ (OverflowError "int too large to convert to float"
          = TypeError "object of type 'NoneType' has no len()"
        ∧ artists_have_character_lists Examples.beyond_doubles = false)).
Proof.
  split; [by vm_compute|].
  apply (normalisation_raises (H := double_sum) Examples.now
           Examples.beyond_doubles).
  by vm_compute.
Defined.

(** The first entry a [_get_*] helper builds comes from the first raw
    entry. *)
Lemma getter_head {A B} (entry : A → result B) (field : option (list A))
    (r : option (list B)) :
  getter entry field = Ok r →
  match field with
  | Some (a :: _) => ∃ b bs, r = Some (b :: bs) ∧ entry a = Ok b
  | _ => r = None
  end.
Proof.
  destruct field as [[|a l]|]; cbn; [by intros [= <-]| |by intros [= <-]].
  destruct (entry a) as [b|]; cbn; [|done].
  destruct (comprehension entry l) as [bs|]; cbn; [|done].
  intros [= <-]. eauto.
Qed.

(** X14.  The image selectors of a normalised song go back to the record:
    [album_image], [artist_image] and [source_image] return the [image]
    string of the first raw album, artist or source when it is non-empty,
    and with [url] the same string behind the address of the content
    delivery host; they return [None] otherwise. *)
Theorem images_come_from_first_raw_entry `{Float64} (now : Qc)
    (data : Raw.Song.t) (s : Song.t) :
  Song.from_data now data = Ok s →
  Song.album_image s false = first_image Raw.Album.image (Raw.Song.albums data)
  ∧ Song.album_image s true
    = (λ v, lit "https://cdn.listen.moe/covers/" ++ v)
        <$> first_image Raw.Album.image (Raw.Song.albums data)
  ∧ Song.artist_image s false = first_image Raw.Artist.image (Raw.Song.artists data)
  ∧ Song.artist_image s true
    = (λ v, lit "https://cdn.listen.moe/artists/" ++ v)
        <$> first_image Raw.Artist.image (Raw.Song.artists data)
  ∧ Song.source_image s false = first_image Raw.Source.image (Raw.Song.sources data)
  ∧ Song.source_image s true
    = (λ v, lit "https://cdn.listen.moe/source/" ++ v)
        <$> first_image Raw.Source.image (Raw.Song.sources data).
Proof.
  intros Hok. apply from_data_lists in Hok as (Hs & Ha & Hl & _).
  apply getter_head in Hs, Ha, Hl.
  unfold Song.album_image, Song.artist_image, Song.source_image, first_image.
  assert (Halbum : ∀ url,
    Song._get_image (Song.albums s) url =
    (λ v, if url then lit "https://cdn.listen.moe/covers/" ++ v else v)
      <$> first_image Raw.Album.image (Raw.Song.albums data)).
  { intros url. unfold first_image.
    destruct (Raw.Song.albums data) as [[|a l]|]; [by rewrite Hl| |by rewrite Hl].
    destruct Hl as (b & bs & -> & Hab).
    apply album_entry_inv in Hab as (? & _ & ->).
    cbn. by destruct (Raw.Album.image a) as [[|]|], url. }
  assert (Hartist : ∀ url,
    Song._get_image (Song.artists s) url =
    (λ v, if url then lit "https://cdn.listen.moe/artists/" ++ v else v)
      <$> first_image Raw.Artist.image (Raw.Song.artists data)).
  { intros url. unfold first_image.
    destruct (Raw.Song.artists data) as [[|a l]|]; [by rewrite Ha| |by rewrite Ha].
    destruct Ha as (b & bs & -> & Hab).
    apply artist_entry_inv in Hab as (? & ? & ? & _ & _ & -> & _).
    cbn. by destruct (Raw.Artist.image a) as [[|]|], url. }
  assert (Hsource : ∀ url,
    Song._get_image (Song.sources s) url =
    (λ v, if url then lit "https://cdn.listen.moe/source/" ++ v else v)
      <$> first_image Raw.Source.image (Raw.Song.sources data)).
  { intros url. unfold first_image.
    destruct (Raw.Song.sources data) as [[|a l]|]; [by rewrite Hs| |by rewrite Hs].
    destruct Hs as (b & bs & -> & Hab).
    apply source_entry_inv in Hab as (? & _ & ->).
    cbn. by destruct (Raw.Source.image a) as [[|]|], url. }
  rewrite (Halbum false), (Halbum true), (Hartist false), (Hartist true),
    (Hsource false), (Hsource true).
  repeat split; first [done | exact (option_fmap_id _)].
Qed.

(** The cover of [Records.with_cover], by name and by address; the first
    album of [Records.full] has no cover, so there is none. *)
Lemma images_come_from_first_raw_entry_witness :
  (∃ s, Song.from_data (H := exact_sum) Examples.now Records.with_cover = Ok s
        ∧ Song.album_image s false = Some (lit "c.jpg")
        ∧ Song.album_image s true = Some (lit "https://cdn.listen.moe/covers/c.jpg"))
  ∧ (∃ s, Song.from_data (H := exact_sum) Examples.now Records.full = Ok s
          ∧ Song.album_image s false = None).
Proof.
  split.
  - eexists. split; [reflexivity|].
    destruct (images_come_from_first_raw_entry (H := exact_sum)
                Examples.now Records.with_cover _ eq_refl) as (Hname & Hurl & _).
    split; [exact Hname|exact Hurl].
  - eexists. split; [reflexivity|].
    exact (proj1 (images_come_from_first_raw_entry (H := exact_sum)
                    Examples.now Records.full _ eq_refl)).
Defined.

(** X15.  The scalar fields of a normalised song: the id and the duration
    are those of the record, a duration of 0 included; the romanised title
    is that of the record, unsanitised, unless it is empty, when it is
    absent; and the title is absent only if the record has none (an empty
    title stays an empty title). *)
Theorem scalar_fields_carried `{Float64} (now : Qc) (data : Raw.Song.t)
    (s : Song.t) :
  Song.from_data now data = Ok s →
  Some (Song.id s) = Raw.Song.id data
  ∧ Song.duration s = Raw.Song.duration data
  ∧ Song.title_romaji s =
      match Raw.Song.titleRomaji data with
      | None => None
      | Some [] => None
      | Some title_romaji => Some title_romaji
      end
  ∧ (Song.title s = None ↔ Raw.Song.title data = None).
Proof.
  intros Hok.
  apply from_data_ok_inv in Hok as (id & ? & ? & ? & ? & ? & -> & _ & _ & _ & _ & _ & ->).
  cbn [Song.id Song.duration Song.title_romaji Song.title]. repeat split.
  - by destruct (Raw.Song.titleRomaji data) as [[|]|].
  - unfold Song._get_title. by destruct (Raw.Song.title data) as [[|]|].
  - unfold Song._get_title. by intros ->.
Qed.

(** [Records.full] has the duration 0 and the romanised title [t]. *)
Lemma scalar_fields_carried_witness :
  ∃ s, Song.from_data (H := exact_sum) Examples.now Records.full = Ok s
       ∧ Song.duration s = Some 0
       ∧ Song.title_romaji s = Some (lit "t").
Proof.
  eexists. split; [reflexivity|].
  destruct (scalar_fields_carried (H := exact_sum)
              Examples.now Records.full _ eq_refl) as (_ & Hd & Hr & _).
  split; [exact Hd|exact Hr].
Defined.

(** ** Voice roles in [artists_to_string], continued *)

(** X16.  A song with one artist, whose placeholders resolve in the song's
    character list, shows the artist as [character (CV: artist)], with the
    character of the last placeholder that resolves: placeholders that
    resolve to nothing are passed over, also after that one, and an id that
    occurs several times in the character list resolves to its last
    occurrence.  Both names are resolved by the preference, and the entry
    is shown when both are non-empty. *)
Theorem voice_role_last_match (self : Song.t) (b : Artist.t)
    (placeholders cs : list Character.t) (c : Character.t)
    (romaji_first : bool) (nb nc sep : pystr) :
  Song.artists self = Some [b] →
  Song.characters self = Some cs →
  Artist.character b = Some placeholders →
  last_resolved cs placeholders = Some c →
  resolved_name romaji_first (Artist.name b) (Artist.name_romaji b) = Some nb →
  nb ≠ [] →
  resolved_name romaji_first (Character.name c) (Character.name_romaji c)
    = Some nc →
  nc ≠ [] →
  Song.artists_to_string self romaji_first sep
  = Some (nc ++ lit " (CV: " ++ nb ++ lit ")").
Proof.
  intros Hartists Hchars Hph Hc Hnb Hnb' Hnc Hnc'.
  rewrite artists_to_string_display. unfold artists_display.
  rewrite Hartists, Hchars. cbn [artist_entries]. rewrite Hph.
  assert (Hcs : cs ≠ []).
  { intros ->. unfold last_resolved in Hc.
    assert (Hnone : omap (λ placeholder,
                      lookup_character [] (Character.id placeholder))
                      placeholders = [])
      by (clear; by induction placeholders).
    by rewrite Hnone in Hc. }
  assert (Hps : placeholders ≠ []) by (by intros ->).
  destruct cs as [|c0 cs]; [done|]. destruct placeholders as [|p ps]; [done|].
  unfold role_name. rewrite Hc, Hnc, Hnb.
  destruct nb as [|? ?]; [done|]. destruct nc as [|? ?]; [done|].
  cbn [voice_entry]. by rewrite app_nil_r.
Qed.

(** Two characters with the id 1, and a placeholder 9 that resolves to
    nothing after the one that resolves: the artist is shown with the
    second character, by its romanised name. *)
Lemma voice_role_last_match_witness :
  let b := Artist.init 11 (Some (lit "B")) None None
             (Some [Character.init 1 None None; Character.init 9 None None]) in
  let cs := [Character.init 1 (Some (lit "C")) None;
             Character.init 1 (Some (lit "D")) (Some (lit "d"))] in
  Song.artists_to_string
    (Song.mk 5 None None (Some [b]) (Some cs) None None 0 None None)
    true (lit ", ")
  = Some (lit "d (CV: B)").
Proof.
  apply (voice_role_last_match _
           (Artist.init 11 (Some (lit "B")) None None
              (Some [Character.init 1 None None; Character.init 9 None None]))
           [Character.init 1 None None; Character.init 9 None None]
           [Character.init 1 (Some (lit "C")) None;
            Character.init 1 (Some (lit "D")) (Some (lit "d"))]
           (Character.init 1 (Some (lit "D")) (Some (lit "d")))
           true (lit "B") (lit "d") (lit ", "));
    first [reflexivity | discriminate].
Defined.

(** X17.  An artist whose placeholders resolve to no character of the song
    is left out of the display, name and all, as long as no artist before
    it had a placeholder that resolved: when this holds of every artist the
    result is the empty string. *)
Theorem unresolved_voice_roles_dropped (self : Song.t) (artists : list Artist.t)
    (cs : list Character.t) (romaji_first : bool) (sep : pystr) :
  Song.artists self = Some artists → artists ≠ [] →
  Song.characters self = Some cs → cs ≠ [] →
  Forall (λ artist,
      truthy_list (Artist.character artist) = true
      ∧ Forall (λ p, lookup_character cs (Character.id p) = None)
          (default [] (Artist.character artist))) artists →
  Song.artists_to_string self romaji_first sep = Some (lit "").
Proof.
  intros Hartists Hne Hchars Hcs Hall.
  unfold Song.artists_to_string. rewrite Hartists, Hchars.
  rewrite (character_map_of_song cs Hcs).
  set (character_map := foldl _ ∅ cs).
  assert (Hmap : ∀ id, character_map !! id = lookup_character cs id)
    by apply character_map_lookup.
  clearbody character_map.
  destruct artists as [|a0 l0] eqn:El; [done|]. rewrite <- El in *. clear El Hne.
  enough (Hloop : ∀ st, Song.char_name st = None → Song.lst_string st = [] →
            Song.lst_string
              (foldl (Song.artists_to_string_body self romaji_first character_map)
                 st artists) = [])
    by (by rewrite Hloop).
  clear Hartists. induction Hall as [|a l [Hph Hun] _ IH]; intros st Hcn Hls; [done|].
  cbn [foldl]. apply IH.
  - unfold Song.artists_to_string_body. rewrite Hchars.
    replace (truthy_list (Some cs)) with true by (by destruct cs).
    destruct (Artist.character a) as [[|p ps]|]; [done| |done].
    cbn [default] in Hun.
    rewrite placeholders_unresolved, Hcn
      by (eapply Forall_impl; [exact Hun|]; intros x Hx; by rewrite Hmap).
    by repeat case_match.
  - unfold Song.artists_to_string_body. rewrite Hchars.
    replace (truthy_list (Some cs)) with true by (by destruct cs).
    destruct (Artist.character a) as [[|p ps]|]; [done| |done].
    cbn [default] in Hun.
    rewrite placeholders_unresolved, Hcn
      by (eapply Forall_impl; [exact Hun|]; intros x Hx; by rewrite Hmap).
    by repeat case_match.
Qed.

(** The artist B voices a character with the id 2, the song lists the
    character 1 only: nothing is displayed. *)
Lemma unresolved_voice_roles_dropped_witness :
  Song.artists_to_string
    (Song.mk 5 None None
       (Some [Artist.init 11 (Some (lit "B")) None None
                (Some [Character.init 2 None None])])
       (Some [Character.init 1 (Some (lit "C")) None])
       None None 0 None None)
    false (lit ", ")
  = Some (lit "").
Proof.
  eapply (unresolved_voice_roles_dropped _
            [Artist.init 11 (Some (lit "B")) None None
               (Some [Character.init 2 None None])]
            [Character.init 1 (Some (lit "C")) None]);
    [reflexivity|discriminate|reflexivity|discriminate|].
  repeat constructor.
Defined.

(** X18.  The character name found for one artist stays in force for the
    artists after it: an artist whose placeholders resolve to nothing is
    shown with the character of the artist before it. *)
Theorem voice_role_name_carries_over (self : Song.t) (b1 b2 : Artist.t)
    (p1 c : Character.t) (ps2 cs : list Character.t) (nb1 nb2 nc sep : pystr) :
  Song.artists self = Some [b1; b2] →
  Song.characters self = Some cs →
  Artist.name b1 = Some nb1 → nb1 ≠ [] →
  Artist.character b1 = Some [p1] →
  lookup_character cs (Character.id p1) = Some c →
  Character.name c = Some nc → nc ≠ [] →
  Artist.name b2 = Some nb2 → nb2 ≠ [] →
  Artist.character b2 = Some ps2 → ps2 ≠ [] →
  Forall (λ p, lookup_character cs (Character.id p) = None) ps2 →
  Song.artists_to_string self false sep
  = Some ((nc ++ lit " (CV: " ++ nb1 ++ lit ")") ++ sep
          ++ nc ++ lit " (CV: " ++ nb2 ++ lit ")").
Proof.
  intros Hartists Hchars Hnb1 Hnb1' Hph1 Hc Hnc Hnc' Hnb2 Hnb2' Hph2 Hps2 Hun.
  assert (Hcs : cs ≠ []) by (by intros ->).
  unfold Song.artists_to_string. rewrite Hartists, Hchars.
  rewrite (character_map_of_song cs Hcs).
  set (character_map := foldl _ ∅ cs).
  assert (Hmap : ∀ id, character_map !! id = lookup_character cs id)
    by apply character_map_lookup.
  clearbody character_map.
  cbn [foldl]. unfold Song.artists_to_string_body.
  rewrite Hchars, Hph1, Hnb1, Hph2, Hnb2.
  replace (truthy_list (Some cs)) with true by (by destruct cs).
  cbn [foldl Song.char_name]. rewrite Hmap, Hc, Hnc.
  destruct nb1 as [|? ?]; [done|]. destruct nc as [|? ?]; [done|].
  destruct nb2 as [|? ?]; [done|]. destruct ps2 as [|p2 ps2]; [done|].
  cbn [Song.char_name Song.lst_string].
  rewrite placeholders_unresolved
    by (eapply Forall_impl; [exact Hun|]; intros x Hx; by rewrite Hmap).
  cbn [Song.lst_string app join]. done.
Qed.

(** B1 voices C, B2 a character the song does not list: B2 is shown as the
    voice of C. *)
Lemma voice_role_name_carries_over_witness :
  Song.artists_to_string
    (Song.mk 5 None None
       (Some [Artist.init 11 (Some (lit "B1")) None None
                (Some [Character.init 1 None None]);
              Artist.init 12 (Some (lit "B2")) None None
                (Some [Character.init 2 None None])])
       (Some [Character.init 1 (Some (lit "C")) None])
       None None 0 None None)
    false (lit ", ")
  = Some (lit "C (CV: B1), C (CV: B2)").
Proof.
  apply (voice_role_name_carries_over _
           (Artist.init 11 (Some (lit "B1")) None None
              (Some [Character.init 1 None None]))
           (Artist.init 12 (Some (lit "B2")) None None
              (Some [Character.init 2 None None]))
           (Character.init 1 None None)
           (Character.init 1 (Some (lit "C")) None)
           [Character.init 2 None None]
           [Character.init 1 (Some (lit "C")) None]
           (lit "B1") (lit "B2") (lit "C") (lit ", "));
    first [reflexivity | discriminate | by repeat constructor].
Defined.

(** ** [Requester.from_data] *)

Lemma requester_none_inv (data : option (gmap string pystr)) :
  Requester.from_data data = Ok None ↔ data = None ∨ data = Some ∅.
Proof.
  unfold Requester.from_data. destruct data as [data|]; [|by split; [left|]].
  case_decide as Hempty.
  - subst. by split; [right|].
  - split.
    + destruct (data !! "uuid"); cbn; [|done].
      destruct (data !! "username"); cbn; [|done].
      by destruct (data !! "displayName").
    + intros [?|[= ->]]; done.
Qed.

(** X19.  [Requester.from_data] returns [None] for an absent requester and
    for the empty dictionary, and for nothing else: a dictionary with any
    key in it is a requester, or an error. *)
Theorem requester_absent_iff (data : option (gmap string pystr)) :
  (Requester.from_data data = Ok None ↔ data = None ∨ data = Some ∅)
  ∧ ∀ key value, Requester.from_data (Some {[key := value]}) ≠ Ok None.
Proof.
  split; [apply requester_none_inv|].
  intros key value Hnone. apply requester_none_inv in Hnone as [?|Hempty]; [done|].
  injection Hempty as Hempty. by apply (map_non_empty_singleton key value).
Qed.

(** The empty dictionary is no requester. *)
Lemma requester_absent_iff_witness : Requester.from_data (Some ∅) = Ok None.
Proof. apply (proj1 (requester_absent_iff (Some ∅))). by right. Defined.

(** X20.  For a non-empty dictionary, [Requester.from_data] raises
    [KeyError] for the first of [uuid], [username], [displayName] that is
    missing, and otherwise returns the requester with these three values and
    the profile link of the user name. *)
Theorem requester_from_dictionary (data : gmap string pystr) :
  data ≠ ∅ →
  match first_missing ["uuid"; "username"; "displayName"] data with
  | Some key => Requester.from_data (Some data) = Raise (KeyError key)
  | None =>
      ∃ r, Requester.from_data (Some data) = Ok (Some r)
           ∧ data !! "uuid" = Some (Requester.uuid r)
           ∧ data !! "username" = Some (Requester.username r)
           ∧ data !! "displayName" = Some (Requester.display_name r)
           ∧ Requester.link r = lit "https://listen.moe/u/" ++ Requester.username r
  end.
Proof.
  intros Hne. unfold Requester.from_data, first_missing.
  rewrite decide_False by done.
  destruct (data !! "uuid") as [uuid|]; cbn; [|done].
  destruct (data !! "username") as [username|]; cbn; [|done].
  destruct (data !! "displayName") as [display_name|]; cbn; [|done].
  by eexists.
Qed.

(** The requester [kana], and the same dictionary without the user name. *)
Lemma requester_from_dictionary_witness :
  (∃ r, Requester.from_data (Some Frames.requester) = Ok (Some r)
        ∧ Frames.requester !! "uuid" = Some (Requester.uuid r)
        ∧ Frames.requester !! "username" = Some (Requester.username r)
        ∧ Frames.requester !! "displayName" = Some (Requester.display_name r)
        ∧ Requester.link r = lit "https://listen.moe/u/" ++ Requester.username r)
  ∧ Requester.from_data (Some (delete "username" Frames.requester))
    = Raise (KeyError "username").
Proof.
  split.
  - apply (requester_from_dictionary Frames.requester).
    apply (bool_decide_unpack _). vm_compute. exact I.
  - pose proof (requester_from_dictionary (delete "username" Frames.requester))
      as Hraise.
    replace (first_missing _ _) with (Some "username") in Hraise
      by (vm_compute; reflexivity).
    apply Hraise. apply (bool_decide_unpack _). vm_compute. exact I.
Defined.

(** X21.  [Requester.from_data] reads the three keys only: any other key of
    a non-empty dictionary is ignored.  The emptiness test sees every key,
    though: a dictionary with an unrelated key alone is not empty, and
    raises [KeyError('uuid')] where the empty dictionary gives [None]. *)
Theorem requester_other_keys (data : gmap string pystr) (key : string)
    (value : pystr) :
  key ∉ ["uuid"; "username"; "displayName"] →
  (data ≠ ∅ →
   Requester.from_data (Some (<[key := value]> data))
   = Requester.from_data (Some data))
  ∧ Requester.from_data (Some (<[key := value]> ∅)) = Raise (KeyError "uuid").
Proof.
  rewrite !not_elem_of_cons. intros (? & ? & ? & _).
  unfold Requester.from_data. split.
  - intros Hne. rewrite decide_False by apply insert_non_empty.
    rewrite decide_False by done. by rewrite !lookup_insert_ne by done.
  - rewrite decide_False by apply insert_non_empty.
    by rewrite lookup_insert_ne, lookup_empty by done.
Qed.

(** A requester with an [avatar], and an [avatar] without a requester. *)
Lemma requester_other_keys_witness :
  Requester.from_data (Some (<["avatar" := lit "a.png"]> Frames.requester))
  = Requester.from_data (Some Frames.requester)
  ∧ Requester.from_data (Some (<["avatar" := lit "a.png"]> ∅))
    = Raise (KeyError "uuid").
Proof.
  destruct (requester_other_keys Frames.requester "avatar" (lit "a.png"))
    as [Hsame Halone].
  { apply (bool_decide_unpack _). vm_compute. exact I. }
  split; [|exact Halone].
  apply Hsame. apply (bool_decide_unpack _). vm_compute. exact I.
Defined.

(** ** [MPVData.from_metadata] *)

(** X22.  [MPVData.from_metadata] returns exactly when the metadata has the
    six keys [ENCODER], [icy-br], [icy-genre], [icy-name], [icy-pub] and
    [icy-url]; when one is missing it raises [KeyError] for the first
    missing one in this order. *)
Theorem metadata_required_keys `{Datetime} (now : datetime)
    (data : gmap string pystr) :
  match first_missing MPVData.required data with
  | Some key => MPVData.from_metadata now data = Raise (KeyError key)
  | None => is_ok (MPVData.from_metadata now data) = true
  end
  ∧ (first_missing MPVData.required data = None
     ↔ Forall (λ key, is_Some (data !! key)) MPVData.required).
Proof.
  unfold MPVData.from_metadata, MPVData.required, first_missing.
  rewrite !Forall_cons.
  destruct (data !! "ENCODER"); cbn; [|by split; [|split; [|intros ([] & _)]]].
  destruct (data !! "icy-br"); cbn; [|by split; [|split; [|intros (_ & [] & _)]]].
  destruct (data !! "icy-genre"); cbn;
    [|by split; [|split; [|intros (_ & _ & [] & _)]]].
  destruct (data !! "icy-name"); cbn;
    [|by split; [|split; [|intros (_ & _ & _ & [] & _)]]].
  destruct (data !! "icy-pub"); cbn;
    [|by split; [|split; [|intros (_ & _ & _ & _ & [] & _)]]].
  destruct (data !! "icy-url"); cbn;
    [|by split; [|split; [|intros (_ & _ & _ & _ & _ & [] & _)]]].
  split; [done|]. split; [|done]. intros _. by repeat split; try constructor.
Qed.

(** [Frames.metadata] has the six keys; without [icy-name] it raises. *)
Lemma metadata_required_keys_witness :
  is_ok (MPVData.from_metadata (H := unparsed) (lit "now") Frames.metadata) = true
  ∧ MPVData.from_metadata (H := unparsed) (lit "now")
      (delete "icy-name" Frames.metadata)
    = Raise (KeyError "icy-name").
Proof.
  split.
  - exact (proj1 (metadata_required_keys (H := unparsed) (lit "now") Frames.metadata)).
  - exact (proj1 (metadata_required_keys (H := unparsed) (lit "now")
                    (delete "icy-name" Frames.metadata))).
Defined.

(** X23.  [MPVData.from_metadata] reads the six required keys and the eight
    tags and nothing else: a key outside these fourteen changes nothing,
    whether it is added or removed. *)
Theorem metadata_other_keys `{Datetime} (now : datetime)
    (data : gmap string pystr) (key : string) (value : pystr) :
  key ∉ MPVData.required ++ MPVData.optional →
  MPVData.from_metadata now (<[key := value]> data) = MPVData.from_metadata now data
  ∧ MPVData.from_metadata now (delete key data) = MPVData.from_metadata now data.
Proof.
  unfold MPVData.required, MPVData.optional. cbn [app].
  rewrite !not_elem_of_cons. intros Hkey. destruct_and!.
  unfold MPVData.from_metadata.
  split.
  - by rewrite !lookup_insert_ne by done.
  - by rewrite !lookup_delete_ne by done.
Qed.

(** A [url] tag is not read. *)
Lemma metadata_other_keys_witness :
  MPVData.from_metadata (H := unparsed) (lit "now")
    (<["url" := lit "x"]> Frames.metadata)
  = MPVData.from_metadata (H := unparsed) (lit "now") Frames.metadata.
Proof.
  apply (metadata_other_keys (H := unparsed)).
  apply (bool_decide_unpack _). vm_compute. exact I.
Defined.

(** X24.  The eight tags of the player metadata are optional: each field is
    the value of its key when the metadata has it and absent when not, and
    a missing tag never makes [from_metadata] raise. *)
Theorem metadata_tags_optional `{Datetime} (now : datetime)
    (data : gmap string pystr) (m : MPVData.t) :
  MPVData.from_metadata now data = Ok m →
  MPVData.start m = now
  ∧ [MPVData.track m; MPVData.genre m; MPVData.title m; MPVData.artist m;
     MPVData.year m; MPVData.date m; MPVData.album m; MPVData.comment m]
    = (data !!.) <$> MPVData.optional
  ∧ Some <$> [MPVData._ENCODER m; MPVData._icy_br m; MPVData._icy_genre m;
              MPVData._icy_name m; MPVData._icy_pub m; MPVData._icy_url m]
    = (data !!.) <$> MPVData.required
  ∧ ∀ tag, tag ∈ MPVData.optional →
           is_ok (MPVData.from_metadata now (delete tag data)) = true.
Proof.
  intros Hok. split; [|split; [|split]].
  - revert Hok. unfold MPVData.from_metadata.
    repeat (match goal with
            | |- context [subscript _ (data !! ?k)] => destruct (data !! k)
            end; cbn; [|done]).
    by intros [= <-].
  - revert Hok. unfold MPVData.from_metadata.
    repeat (match goal with
            | |- context [subscript _ (data !! ?k)] => destruct (data !! k)
            end; cbn; [|done]).
    by intros [= <-].
  - revert Hok. unfold MPVData.from_metadata.
    repeat (match goal with
            | |- context [subscript _ (data !! ?k)] =>
                destruct (data !! k) eqn:?
            end; cbn; [|done]).
    intros [= <-]. cbn. by repeat f_equal.
  - intros tag Htag. revert Hok.
    unfold MPVData.optional in Htag. rewrite !elem_of_cons in Htag.
    unfold MPVData.from_metadata.
    assert (Hreq : Forall (λ k, tag ≠ k) MPVData.required).
    { unfold MPVData.required.
      destruct_or!; subst; try (by apply elem_of_nil in Htag);
        by repeat constructor. }
    unfold MPVData.required in Hreq. rewrite !Forall_cons in Hreq. destruct_and!.
    rewrite !(lookup_delete_ne data tag) by done.
    repeat (match goal with
            | |- context [subscript _ (data !! ?k)] => destruct (data !! k)
            end; cbn; [|done]).
    done.
Qed.

(** [Frames.metadata] has a title and no other tag. *)
Lemma metadata_tags_optional_witness :
  ∃ m, MPVData.from_metadata (H := unparsed) (lit "now") Frames.metadata = Ok m
       ∧ [MPVData.track m; MPVData.genre m; MPVData.title m; MPVData.artist m;
          MPVData.year m; MPVData.date m; MPVData.album m; MPVData.comment m]
         = [None; None; Some (lit "Song"); None; None; None; None; None].
Proof.
  eexists. split; [vm_compute; reflexivity|].
  exact (proj1 (proj2 (metadata_tags_optional (H := unparsed) (lit "now")
                         Frames.metadata _ eq_refl))).
Defined.

(** ** [SystemFeed.from_data] *)

Lemma from_data_id `{Float64} (now : Qc) (raw : Raw.Song.t) (s : Song.t) :
  Song.from_data now raw = Ok s → Raw.Song.id raw = Some (Song.id s).
Proof.
  intros Hok.
  by apply from_data_ok_inv in Hok as (? & ? & ? & ? & ? & ? & -> & _ & _ & _ & _ & _ & ->).
Qed.

(** X25.  A feed entry normalises exactly when it has the keys [type],
    [createdAt] and [song] and its song normalises; the entry then holds
    these two values and the normalised song, whose id is the id of the raw
    song. *)
Theorem feed_wraps_song `{Float64} (now : Qc) (data : RawFeed.t) :
  is_ok (SystemFeed.from_data now data)
  = present (RawFeed.type data) && present (RawFeed.createdAt data)
    && match RawFeed.song data with
       | Some raw => is_ok (Song.from_data now raw)
       | None => false
       end
  ∧ ∀ feed, SystemFeed.from_data now data = Ok feed →
      RawFeed.type data = Some (SystemFeed.type feed)
      ∧ RawFeed.createdAt data = Some (SystemFeed.created_at feed)
      ∧ ∃ raw, RawFeed.song data = Some raw
               ∧ Song.from_data now raw = Ok (SystemFeed.song feed)
               ∧ Raw.Song.id raw = Some (Song.id (SystemFeed.song feed)).
Proof.
  unfold SystemFeed.from_data.
  destruct (RawFeed.type data) as [type|]; cbn; [|done].
  destruct (RawFeed.createdAt data) as [created_at|]; cbn; [|done].
  destruct (RawFeed.song data) as [raw|]; cbn; [|done].
  destruct (Song.from_data now raw) as [s|] eqn:Es; cbn; [|done].
  split; [done|]. intros feed [= <-]. cbn. repeat split.
  exists raw. repeat split; [done|]. by apply (from_data_id now).
Qed.

(** The feed entry of [Records.full]: the song of the entry has the id 1. *)
Lemma feed_wraps_song_witness :
  ∃ feed, SystemFeed.from_data (H := exact_sum) Examples.now Frames.feed = Ok feed
          ∧ ∃ raw, RawFeed.song Frames.feed = Some raw
                   ∧ Song.from_data (H := exact_sum) Examples.now raw
                     = Ok (SystemFeed.song feed)
                   ∧ Raw.Song.id raw = Some (Song.id (SystemFeed.song feed)).
Proof.
  eexists. split; [reflexivity|].
  exact (proj2 (proj2 (proj2 (feed_wraps_song (H := exact_sum)
                                Examples.now Frames.feed) _ eq_refl))).
Defined.

(** ** [ListenWsData.from_data] *)

Section Frame.
Context `{Float64} `{Datetime}.

Lemma history_ids (time : nat → Qc) (first : nat) (songs : list Raw.Song.t)
    (built : list Song.t) :
  ListenWsData.history time first songs = Ok built →
  (λ s, Some (Song.id s)) <$> built = Raw.Song.id <$> songs.
Proof.
  revert first built. induction songs as [|raw songs IH]; intros first built;
    cbn [ListenWsData.history].
  - by intros [= <-].
  - destruct (Song.from_data (time first) raw) as [s|] eqn:Es; cbn; [|done].
    destruct (ListenWsData.history time (S first) songs) as [ss|] eqn:Ess;
      cbn; [|done].
    intros [= <-]. cbn. f_equal; [|by eapply IH].
    symmetry. by eapply from_data_id.
Qed.

Lemma history_lookup (time : nat → Qc) (first : nat) (songs : list Raw.Song.t)
    (built : list Song.t) :
  ListenWsData.history time first songs = Ok built →
  length built = length songs
  ∧ ∀ (i : nat) raw, songs !! i = Some raw →
      ∃ s, built !! i = Some s
           ∧ Song.from_data (time (first + i)%nat) raw = Ok s.
Proof.
  revert first built. induction songs as [|raw songs IH]; intros first built;
    cbn [ListenWsData.history].
  - intros [= <-]. split; [done|]. by intros i raw [=].
  - destruct (Song.from_data (time first) raw) as [s|] eqn:Es; cbn; [|done].
    destruct (ListenWsData.history time (S first) songs) as [ss|] eqn:Ess;
      cbn; [|done].
    intros [= <-]. destruct (IH _ _ Ess) as [Hlen Hat]. split; [cbn; lia|].
    intros [|i] raw'; cbn.
    + intros [= <-]. exists s. by rewrite Nat.add_0_r.
    + intros Hi. destruct (Hat i raw' Hi) as (s' & ? & Hs').
      exists s'. split; [done|]. by rewrite Nat.add_succ_r.
Qed.

Lemma history_raises (time : nat → Qc) (first : nat) (songs : list Raw.Song.t) :
  Exists (λ raw, is_ok (Song.from_data (time 0%nat) raw) = false) songs →
  is_ok (ListenWsData.history time first songs) = false.
Proof.
  intros Hbad. revert first.
  induction Hbad as [raw songs Hraw|raw songs _ IH]; intros first;
    cbn [ListenWsData.history].
  - rewrite from_data_is_ok in Hraw.
    pose proof (from_data_is_ok (time first) raw) as Hfirst.
    rewrite Hraw in Hfirst. by destruct (Song.from_data (time first) raw).
  - destruct (Song.from_data (time first) raw); cbn; [|done].
    specialize (IH (S first)).
    by destruct (ListenWsData.history time (S first) songs).
Qed.

(** What a normalised frame was built from. *)
Lemma frame_inv (import_time : Qc) (time : nat → Qc) (data : RawFrame.t)
    (frame : ListenWsData.t) :
  ListenWsData.from_data import_time time data = ListenWsData.Returned frame →
  ∃ d start_time raw_song raw_history,
    RawFrame.op data = Some (ListenWsData._op frame)
    ∧ RawFrame.t_ data = Some (ListenWsData._t frame)
    ∧ RawFrame.d data = Some d
    ∧ RawFrame.Payload.startTime d = Some start_time
    ∧ fromisoformat start_time = Some (ListenWsData.start_time frame)
    ∧ RawFrame.Payload.listeners d = Some (ListenWsData.listener frame)
    ∧ Requester.from_data (RawFrame.Payload.requester d)
      = Ok (ListenWsData.requester frame)
    ∧ ListenWsData.event frame = RawFrame.Payload.event d
    ∧ RawFrame.Payload.song d = Some raw_song
    ∧ Song.from_data (time 0%nat) raw_song = Ok (ListenWsData.song frame)
    ∧ RawFrame.Payload.lastPlayed d = Some raw_history
    ∧ ListenWsData.history time 1 raw_history = Ok (ListenWsData.last_played frame)
    ∧ ListenWsData.last_heartbeat frame = import_time.
Proof.
  unfold ListenWsData.from_data.
  destruct (RawFrame.op data) as [op|]; cbn; [|done].
  destruct (RawFrame.t_ data) as [t|]; cbn; [|done].
  destruct (RawFrame.d data) as [d|]; cbn; [|done].
  destruct (RawFrame.Payload.startTime d) as [start_time|] eqn:E1; cbn; [|done].
  destruct (fromisoformat start_time) as [parsed|] eqn:E2; cbn; [|done].
  destruct (RawFrame.Payload.listeners d) as [listeners|] eqn:E3; cbn; [|done].
  destruct (Requester.from_data (RawFrame.Payload.requester d)) as [requester|]
    eqn:E4; cbn; [|done].
  destruct (RawFrame.Payload.song d) as [raw_song|] eqn:E5; cbn; [|done].
  destruct (Song.from_data (time 0%nat) raw_song) as [song|] eqn:E6; cbn; [|done].
  destruct (RawFrame.Payload.lastPlayed d) as [raw_history|] eqn:E7; cbn; [|done].
  destruct (ListenWsData.history time 1 raw_history) as [last_played|] eqn:E8;
    cbn; [|done].
  intros [= <-]. exists d, start_time, raw_song, raw_history. by repeat split.
Qed.

End Frame.

(** X26.  The history of a normalised frame is the raw [lastPlayed] list,
    song for song and in the order delivered, with nothing merged or left
    out: the ids of [last_played] are the raw ids in the same order. *)
Theorem frame_history_in_order `{Float64} `{Datetime} (import_time : Qc)
    (time : nat → Qc) (data : RawFrame.t) (frame : ListenWsData.t) :
  ListenWsData.from_data import_time time data = ListenWsData.Returned frame →
  (λ s, Some (Song.id s)) <$> ListenWsData.last_played frame
  = Raw.Song.id <$> history_of data.
Proof.
  intros Hok. apply frame_inv in Hok
    as (d & ? & ? & raw_history & _ & _ & Hd & _ & _ & _ & _ & _ & _ & _ & Hh & Hl & _).
  unfold history_of. rewrite Hd. cbn. rewrite Hh. cbn.
  by eapply history_ids.
Qed.

(** The history of [Frames.frame] comes out as the songs 4 and 2. *)
Lemma frame_history_in_order_witness :
  ∃ frame,
    ListenWsData.from_data (H0 := unparsed) (H := exact_sum)
      Examples.now Frames.ticking Frames.frame
    = ListenWsData.Returned frame
    ∧ (λ s, Some (Song.id s)) <$> ListenWsData.last_played frame
      = [Some 4; Some 2].
Proof.
  eexists. split; [vm_compute; reflexivity|].
  exact (frame_history_in_order (H0 := unparsed) (H := exact_sum)
           Examples.now Frames.ticking Frames.frame _ eq_refl).
Defined.

(** X27.  Every song of a frame is normalised at a clock reading of its
    own: the current song at the first reading taken, and the history entry
    at position [i] at the reading after the [i] songs before it, so that
    its expiry counts from the moment the frame is normalised. *)
Theorem frame_songs_read_the_clock `{Float64} `{Datetime} (import_time : Qc)
    (time : nat → Qc) (data : RawFrame.t) (frame : ListenWsData.t) :
  ListenWsData.from_data import_time time data = ListenWsData.Returned frame →
  length (ListenWsData.last_played frame) = length (history_of data)
  ∧ (∀ (i : nat) raw, history_of data !! i = Some raw →
       ∃ s, ListenWsData.last_played frame !! i = Some s
            ∧ Song.from_data (time (S i)) raw = Ok s)
  ∧ ∃ raw, RawFrame.d data ≫= RawFrame.Payload.song = Some raw
           ∧ Song.from_data (time 0%nat) raw = Ok (ListenWsData.song frame).
Proof.
  intros Hok. apply frame_inv in Hok
    as (d & ? & raw_song & raw_history
        & _ & _ & Hd & _ & _ & _ & _ & _ & Hs & Hsong & Hh & Hl & _).
  unfold history_of. rewrite Hd. cbn. rewrite Hh, Hs. cbn.
  apply history_lookup in Hl as [Hlen Hat].
  split; [done|]. split; [exact Hat|]. by exists raw_song.
Qed.

(** The first history entry of [Frames.frame] lasts a minute and is read
    one second after the current song: it expires 61 seconds after the
    first reading. *)
Lemma frame_songs_read_the_clock_witness :
  ∃ frame,
    ListenWsData.from_data (H0 := unparsed) (H := exact_sum)
      Examples.now Frames.ticking Frames.frame
    = ListenWsData.Returned frame
    ∧ length (ListenWsData.last_played frame) = length (history_of Frames.frame)
    ∧ Song.time_end <$> ListenWsData.last_played frame !! 0%nat = Some 1700000061.
Proof.
  eexists. split; [vm_compute; reflexivity|].
  split; [|vm_compute; reflexivity].
  exact (proj1 (frame_songs_read_the_clock (H0 := unparsed) (H := exact_sum)
                  Examples.now Frames.ticking Frames.frame _ eq_refl)).
Defined.

(** X28.  One history entry that cannot be normalised loses the frame: when
    some song of [lastPlayed] does not normalise, [ListenWsData.from_data]
    raises, whatever the rest of the frame holds. *)
Theorem frame_needs_whole_history `{Float64} `{Datetime} (import_time : Qc)
    (time : nat → Qc) (data : RawFrame.t) :
  Exists (λ raw, is_ok (Song.from_data (time 0%nat) raw) = false)
    (history_of data) →
  returned (ListenWsData.from_data import_time time data) = false.
Proof.
  intros Hbad.
  destruct (ListenWsData.from_data import_time time data) as [frame|] eqn:Hok;
    [|done].
  apply frame_inv in Hok
    as (d & ? & ? & raw_history & _ & _ & Hd & _ & _ & _ & _ & _ & _ & _ & Hh & Hl & _).
  unfold history_of in Hbad. rewrite Hd in Hbad. cbn in Hbad.
  rewrite Hh in Hbad. cbn in Hbad.
  apply (history_raises time 1) in Hbad. by rewrite Hl in Hbad.
Qed.

(** [Frames.broken_history] has a history entry without an id. *)
Lemma frame_needs_whole_history_witness :
  returned (ListenWsData.from_data (H0 := unparsed) (H := exact_sum)
              Examples.now Frames.ticking Frames.broken_history) = false.
Proof.
  apply (frame_needs_whole_history (H0 := unparsed) (H := exact_sum)).
  apply Exists_cons_tl, Exists_cons_hd. reflexivity.
Defined.

(** X29.  The requester of a normalised frame is absent exactly when the
    frame has no requester or an empty one; the other fields of the frame
    are the raw values: [_op], [_t], the listener count and the event tag,
    with [last_heartbeat] the time at which the class was created. *)
Theorem frame_fields `{Float64} `{Datetime} (import_time : Qc)
    (time : nat → Qc) (data : RawFrame.t) (frame : ListenWsData.t) :
  ListenWsData.from_data import_time time data = ListenWsData.Returned frame →
  (ListenWsData.requester frame = None
   ↔ requester_of data = None ∨ requester_of data = Some ∅)
  ∧ RawFrame.op data = Some (ListenWsData._op frame)
  ∧ RawFrame.t_ data = Some (ListenWsData._t frame)
  ∧ RawFrame.d data ≫= RawFrame.Payload.listeners
    = Some (ListenWsData.listener frame)
  ∧ RawFrame.d data ≫= RawFrame.Payload.event = ListenWsData.event frame
  ∧ ListenWsData.last_heartbeat frame = import_time.
Proof.
  intros Hok. apply frame_inv in Hok
    as (d & ? & ? & ? & Hop & Ht & Hd & _ & _ & Hl & Hr & He & _ & _ & _ & _ & Hb).
  unfold requester_of. rewrite Hd. cbn. repeat split; try done.
  - intros Hnone. rewrite Hnone in Hr. by apply requester_none_inv.
  - intros Hraw. apply requester_none_inv in Hraw. congruence.
Qed.

(** [Frames.frame] has no requester and 250 listeners. *)
Lemma frame_fields_witness :
  ∃ frame,
    ListenWsData.from_data (H0 := unparsed) (H := exact_sum)
      Examples.now Frames.ticking Frames.frame
    = ListenWsData.Returned frame
    ∧ RawFrame.d Frames.frame ≫= RawFrame.Payload.listeners
      = Some (ListenWsData.listener frame)
    ∧ ListenWsData.last_heartbeat frame = Examples.now.
Proof.
  eexists. split; [vm_compute; reflexivity|].
  destruct (frame_fields (H0 := unparsed) (H := exact_sum)
              Examples.now Frames.ticking Frames.frame _ eq_refl)
    as (_ & _ & _ & Hl & _ & Hb).
  split; [exact Hl|exact Hb].
Defined.
